(** * LocalHighlightRegistry: a scoped registry over [CSS.highlights]

    Shallow embedding of [src/main.ts].  The class keeps a private
    [Map<string, Set<Range>>] (the field [#ranges]) and talks to the
    process-wide [CSS.highlights] registry, a map from names to [Highlight]
    objects.  Every method is a function from the instance's own [#ranges]
    and the shared environment to a completion, the new [#ranges] and the
    new environment. *)

From stdpp Require Import gmap strings list fin_maps.
From Stdlib Require Import ZArith Lia.

(** ** Values *)

(** A [Range] is an object; only its identity matters to the registry, so a
    range is represented by the identity of the object. *)
Abbreviation Range := nat (only parsing).

(** Identity of a [Highlight] object on the heap. *)
Abbreviation loc := nat (only parsing).

(** ** [Set<Range>]

    A JavaScript [Set] keeps its members in insertion order and holds each of
    them once.  The sets of [#ranges] are private to the instance and each is
    referenced by exactly one entry of the map, so they are modelled by value:
    mutating the set object is writing the new value back into its entry. *)
Abbreviation RangeSet := (list nat) (only parsing).

Definition set_has (s : RangeSet) (r : Range) : bool := bool_decide (r ∈ s).

Definition set_add (s : RangeSet) (r : Range) : RangeSet :=
  if set_has s r then s else s ++ [r].

Definition set_delete (s : RangeSet) (r : Range) : RangeSet :=
  filter (λ x, x ≠ r) s.

Definition set_size (s : RangeSet) : nat := length s.

(** ** [Map<string, Set<Range>>]

    The map data of ECMAScript: a list of entries in insertion order, where a
    deleted entry leaves an empty slot behind ([None]) so that an iterator
    that is walking the list keeps its position.  [MapData] is the value of the
    private field [#ranges]. *)
Abbreviation MapData := (list (option (string * list nat))) (only parsing).

Fixpoint map_get (m : MapData) (k : string) : option RangeSet :=
  match m with
  | [] => None
  | None :: m' => map_get m' k
  | Some (k', v) :: m' => if decide (k' = k) then Some v else map_get m' k
  end.

(** [Map.prototype.set]: the value of an existing entry is replaced where it
    stands, a new key is appended. *)
Fixpoint map_set (m : MapData) (k : string) (v : RangeSet) : MapData :=
  match m with
  | [] => [Some (k, v)]
  | None :: m' => None :: map_set m' k v
  | Some (k', v') :: m' =>
      if decide (k' = k) then Some (k, v) :: m'
      else Some (k', v') :: map_set m' k v
  end.

(** [Map.prototype.delete]: the entry of the key is emptied, the slot stays. *)
Definition map_delete (m : MapData) (k : string) : MapData :=
  map (λ en, match en with
             | Some (k', v) => if decide (k' = k) then None else Some (k', v)
             | None => None
             end) m.

(** ECMAScript words the deletion as a walk that empties the first entry with
    the key and stops.  The keys of the live entries of a map are pairwise
    distinct, so both empty the same entry ([map_delete_first_eq]). *)
Fixpoint map_delete_first (m : MapData) (k : string) : MapData :=
  match m with
  | [] => []
  | None :: m' => None :: map_delete_first m' k
  | Some (k', v) :: m' =>
      if decide (k' = k) then None :: m'
      else Some (k', v) :: map_delete_first m' k
  end.

(** The keys of the live entries, in insertion order: what [Array.from
    (map.keys())] would give. *)
Definition map_keys (m : MapData) : list string :=
  omap (λ en, fst <$> en) m.

Definition map_size (m : MapData) : nat := length (map_keys m).

(** ** The shared environment: [CSS.highlights], the heap and the console *)

(** A [Highlight] is set-like over ranges and carries a priority.  The
    priority attribute is a WebIDL [long]. *)
Record Highlight := mkHighlight {
  h_ranges : list nat;
  h_priority : Z
}.

(** Conversion of an integral JavaScript number to a WebIDL [long]. *)
Definition wrap32 (p : Z) : Z := ((p + 2 ^ 31) mod 2 ^ 32 - 2 ^ 31)%Z.

(** Messages given to [console.warn]. *)
Inductive Diag :=
| PriorityMismatch (name : string) (registered requested : Z)
| DeletedElsewhere
| SomeDeletedElsewhere (name : string).

(** [highlights] is [CSS.highlights], a map from names to [Highlight] objects;
    the objects live in [heap], so that a [Highlight] registered under two
    names by other code is one object. *)
Record Env := mkEnv {
  highlights : gmap string nat;
  heap : gmap nat Highlight;
  console : list Diag
}.

Definition deref (e : Env) (l : loc) : Highlight :=
  default (mkHighlight [] 0) (heap e !! l).

Definition store (e : Env) (l : loc) (h : Highlight) : Env :=
  mkEnv (highlights e) (<[l := h]> (heap e)) (console e).

(** [CSS.highlights.get(name)] *)
Definition registry_get (e : Env) (name : string) : option loc :=
  highlights e !! name.

(** [CSS.highlights.set(name, gh)] *)
Definition registry_set (e : Env) (name : string) (gh : loc) : Env :=
  mkEnv (<[name := gh]> (highlights e)) (heap e) (console e).

(** [new Highlight()] *)
Definition new_Highlight (e : Env) : loc * Env :=
  let l := fresh (dom (heap e)) in (l, store e l (mkHighlight [] 0)).

(** [gh.priority] and [gh.priority = p] *)
Definition highlight_priority (e : Env) (gh : loc) : Z :=
  h_priority (deref e gh).

Definition highlight_set_priority (e : Env) (gh : loc) (p : Z) : Env :=
  store e gh (mkHighlight (h_ranges (deref e gh)) (wrap32 p)).

(** [gh.has(range)], [gh.add(range)] and [gh.delete(range)]; the last one
    answers whether the range was there. *)
Definition highlight_has (e : Env) (gh : loc) (r : Range) : bool :=
  set_has (h_ranges (deref e gh)) r.

Definition highlight_add (e : Env) (gh : loc) (r : Range) : Env :=
  store e gh (mkHighlight (set_add (h_ranges (deref e gh)) r)
                          (h_priority (deref e gh))).

Definition highlight_delete (e : Env) (gh : loc) (r : Range) : bool * Env :=
  if highlight_has e gh r
  then (true, store e gh (mkHighlight (set_delete (h_ranges (deref e gh)) r)
                                      (h_priority (deref e gh))))
  else (false, e).

(** [console.warn(d)] *)
Definition console_warn (e : Env) (d : Diag) : Env :=
  mkEnv (highlights e) (heap e) (console e ++ [d]).

(** Whether the shared registry has a collection for [name] that holds
    [range]. *)
Definition shared_has (e : Env) (name : string) (r : Range) : bool :=
  match registry_get e name with
  | Some gh => highlight_has e gh r
  | None => false
  end.

(** ** Completions *)

Inductive Completion (A : Type) :=
| Normal (v : A)
| Throw (msg : string).
Arguments Normal {A} v.
Arguments Throw {A} msg.

Definition is_throw {A} (c : Completion A) : bool :=
  match c with Throw _ => true | Normal _ => false end.

Definition already_registered : string :=
  "This range has been already registered as an highlight elsewhere.".

(** ** The methods of [LocalHighlightRegistry] *)

(** Lines 118 to 139 of [add]: [set] is the set found or just created for
    [name], and [m] already holds it. *)
Definition add_shared (name : string) (range : Range) (priority : Z)
    (set : RangeSet) (m : MapData) (e : Env)
  : Completion bool * MapData * Env :=
  match registry_get e name with
  | None =>
      let '(gh, e1) := new_Highlight e in
      let e2 := registry_set e1 name gh in
      let e3 := highlight_set_priority e2 gh priority in
      (Normal true, map_set m name (set_add set range),
       highlight_add e3 gh range)
  | Some gh =>
      if highlight_has e gh range then (Throw already_registered, m, e)
      else
        let e1 :=
          if decide (highlight_priority e gh ≠ priority)
          then console_warn e
                 (PriorityMismatch name (highlight_priority e gh) priority)
          else e in
        (Normal true, map_set m name (set_add set range),
         highlight_add e1 gh range)
  end.

Definition add (name : string) (range : Range) (priority : Z)
    (m : MapData) (e : Env) : Completion bool * MapData * Env :=
  match map_get m name with
  | None => add_shared name range priority [] (map_set m name []) e
  | Some set =>
      if set_has set range then (Normal false, m, e)
      else add_shared name range priority set m e
  end.

Definition has (name : string) (range : Range) (m : MapData) : bool :=
  match map_get m name with
  | None => false
  | Some set => set_has set range
  end.

Definition delete (name : string) (range : Range) (m : MapData) (e : Env)
  : bool * MapData * Env :=
  match map_get m name with
  | None => (false, m, e)
  | Some set =>
      if negb (set_has set range) then (false, m, e)
      else
        let set' := set_delete set range in
        let m1 := map_set m name set' in
        let m2 := if decide (set_size set' = 0) then map_delete m1 name
                  else m1 in
        match registry_get e name with
        | None => (true, m2, console_warn e DeletedElsewhere)
        | Some gh =>
            if negb (highlight_has e gh range)
            then (true, m2, console_warn e DeletedElsewhere)
            else (true, m2, snd (highlight_delete e gh range))
        end
  end.

(** The loop of [deleteAll]: each turn overwrites [warn]. *)
Definition deleteAll_loop (gh : loc) (set : RangeSet) (warn : bool) (e : Env)
  : bool * Env :=
  foldl (λ '(_, e) range,
           let '(found, e') := highlight_delete e gh range in
           (negb found, e'))
        (warn, e) set.

Definition deleteAll (name : string) (m : MapData) (e : Env)
  : bool * MapData * Env :=
  match map_get m name with
  | None => (false, m, e)
  | Some set =>
      let '(warn, e1) :=
        match registry_get e name with
        | None => (true, e)
        | Some gh => deleteAll_loop gh set false e
        end in
      let e2 := if warn then console_warn e1 (SomeDeletedElsewhere name)
                else e1 in
      (true, map_delete m name, e2)
  end.

(** [clear] walks the live iterator [this.#ranges.keys()]: the iterator reads
    the entry at its index from the map as it is at that moment, skips empty
    slots, and stops when the index reaches the end of the entries.  [fuel]
    bounds the number of turns; [None] is running out of it. *)
Fixpoint clear_loop (fuel : nat) (index : nat) (m : MapData) (e : Env)
  : option (MapData * Env) :=
  match m !! index with
  | None => Some (m, e)
  | Some en =>
      match fuel with
      | O => None
      | S fuel' =>
          match en with
          | None => clear_loop fuel' (S index) m e
          | Some (name, _) =>
              let '(_, m', e') := deleteAll name m e in
              clear_loop fuel' (S index) m' e'
          end
      end
  end.

Definition clear (m : MapData) (e : Env) : option (MapData * Env) :=
  clear_loop (length m) 0 m e.

(** One [this.deleteAll(name)] whose answer is dropped, as in the body of the
    loop of [clear]. *)
Definition deleteAll_step (st : MapData * Env)
    (name : string) : MapData * Env :=
  let '(_, m', e') := deleteAll name st.1 st.2 in (m', e').

(** [clear] as the specification words it: [deleteAll] for every name of a
    snapshot of the keys taken before the first call. *)
Definition clear_snapshot (m : MapData) (e : Env) : MapData * Env :=
  foldl deleteAll_step (m, e) (map_keys m).

(** ** Calls of the public methods *)

Inductive Call :=
| CallAdd (name : string) (range : nat) (priority : Z)
| CallHas (name : string) (range : nat)
| CallDelete (name : string) (range : nat)
| CallDeleteAll (name : string)
| CallClear.

Inductive Value :=
| VBool (b : bool)
| VUndefined.

Definition completion_map {A B} (f : A → B) (c : Completion A)
  : Completion B :=
  match c with
  | Normal v => Normal (f v)
  | Throw msg => Throw msg
  end.

(** The completion of a call, with the [#ranges] and the environment it
    leaves; [None] only if the loop of [clear] ran out of fuel. *)
Definition run (c : Call) (m : MapData) (e : Env)
  : option (Completion Value * MapData * Env) :=
  match c with
  | CallAdd name range priority =>
      let '(r, m', e') := add name range priority m e in
      Some (completion_map VBool r, m', e')
  | CallHas name range => Some (Normal (VBool (has name range m)), m, e)
  | CallDelete name range =>
      let '(b, m', e') := delete name range m e in
      Some (Normal (VBool b), m', e')
  | CallDeleteAll name =>
      let '(b, m', e') := deleteAll name m e in
      Some (Normal (VBool b), m', e')
  | CallClear =>
      '(m', e') ← clear m e; Some (Normal VUndefined, m', e')
  end.

(** ** The invariant of the local ledger

    A name is a key of [#ranges] if and only if its set is not empty: no live
    entry holds the empty set. *)
Definition entry_ok (en : option (string * list nat)) : bool :=
  match en with
  | Some (_, set) => negb (bool_decide (set = []))
  | None => true
  end.

Definition ledger_inv (m : MapData) : bool := forallb entry_ok m.

(** ** Two registries over one [CSS.highlights] *)




(** ** Environments left by other code *)

(** Another registry, or direct use of [CSS.highlights], has put range [7]
    under ["x"]. *)
Definition collision_env : Env :=
  mkEnv {["x" := 0]} {[0 := mkHighlight [7] 0%Z]} [].

(** The registry owns ranges [1] and [2] under ["x"]; range [1] has been
    removed from the shared collection by other code. *)
Definition raced_env : Env :=
  mkEnv {["x" := 0]} {[0 := mkHighlight [2] 0%Z]} [].

(** ** Relations between environments *)

(** Every [Highlight] object of [e] is still there in [e'], with the priority
    it had. *)
Definition priorities_kept (e e' : Env) : Prop :=
  ∀ l h, heap e !! l = Some h →
         ∃ h', heap e' !! l = Some h' ∧ h_priority h' = h_priority h.

(** * Properties *)

(** ** Sets *)

Lemma set_has_true (s : RangeSet) r : set_has s r = true ↔ r ∈ s.
Proof. apply bool_decide_eq_true. Qed.

Lemma set_has_false (s : RangeSet) r : set_has s r = false ↔ r ∉ s.
Proof. apply bool_decide_eq_false. Qed.

Lemma set_has_add (s : RangeSet) r r' :
  set_has (set_add s r) r' = set_has s r' || bool_decide (r' = r).
Proof.
  unfold set_add. destruct (set_has s r) eqn:Hr.
  - apply set_has_true in Hr. case_bool_decide as Heq; [subst|].
    + rewrite orb_true_r. by apply set_has_true.
    + by rewrite orb_false_r.
  - unfold set_has. rewrite <- bool_decide_or. apply bool_decide_ext.
    by rewrite elem_of_app, list_elem_of_singleton.
Qed.

Lemma set_has_delete (s : RangeSet) r r' :
  set_has (set_delete s r) r' = set_has s r' && negb (bool_decide (r' = r)).
Proof.
  unfold set_has, set_delete.
  rewrite <- bool_decide_not, <- bool_decide_and. apply bool_decide_ext.
  rewrite list_elem_of_filter. tauto.
Qed.

Lemma set_add_nonempty (s : RangeSet) r : set_add s r ≠ [].
Proof.
  unfold set_add. destruct (set_has s r) eqn:Hr.
  - apply set_has_true in Hr. intros ->. by apply not_elem_of_nil in Hr.
  - by destruct s.
Qed.

(** ** Maps *)

Lemma map_get_set_eq (m : MapData) k v :
  map_get (map_set m k v) k = Some v.
Proof.
  induction m as [|[[k' v']|] m IH]; simpl; repeat case_decide; simpl;
    repeat case_decide; try done.
Qed.

Lemma map_get_set_ne (m : MapData) k k' v :
  k ≠ k' → map_get (map_set m k v) k' = map_get m k'.
Proof.
  intros Hne. induction m as [|[[k0 v0]|] m IH]; simpl; repeat case_decide;
    simpl; repeat case_decide; subst; try done.
Qed.

Lemma map_get_delete_eq (m : MapData) k :
  map_get (map_delete m k) k = None.
Proof.
  induction m as [|[[k' v']|] m IH]; simpl; repeat case_decide; simpl;
    repeat case_decide; try done.
Qed.

Lemma map_get_delete_ne (m : MapData) k k' :
  k ≠ k' → map_get (map_delete m k) k' = map_get m k'.
Proof.
  intros Hne. induction m as [|[[k0 v0]|] m IH]; simpl; repeat case_decide;
    simpl; repeat case_decide; subst; try done.
Qed.

Lemma map_delete_absent (m : MapData) k :
  map_get m k = None → map_delete m k = m.
Proof.
  induction m as [|[[k' v']|] m IH]; simpl; intros H; repeat case_decide;
    try done; f_equal; auto.
Qed.

Lemma map_delete_app (m1 m2 : MapData) k :
  map_delete (m1 ++ m2) k = map_delete m1 k ++ map_delete m2 k.
Proof. unfold map_delete. apply map_app. Qed.

Lemma map_get_keys (m : MapData) k :
  map_get m k = None ↔ k ∉ map_keys m.
Proof.
  unfold map_keys.
  induction m as [|[[k' v']|] m IH]; simpl.
  - split; [intros _; apply not_elem_of_nil | done].
  - rewrite not_elem_of_cons. case_decide as Hk; subst.
    + split; [done | intros [? _]; done].
    + split; [intros H; split; [congruence | by apply IH]
             | intros [_ H]; by apply IH].
  - done.
Qed.

Lemma map_keys_delete (m : MapData) k :
  map_keys (map_delete m k) = filter (λ x, x ≠ k) (map_keys m).
Proof.
  unfold map_keys.
  induction m as [|[[k' v']|] m IH]; simpl; try done.
  case_decide; subst; simpl.
  - rewrite filter_cons_False by (intros H; by apply H). done.
  - rewrite filter_cons_True by done. by f_equal.
Qed.

Lemma map_keys_set (m : MapData) k v :
  map_keys (map_set m k v)
  = if decide (k ∈ map_keys m) then map_keys m else map_keys m ++ [k].
Proof.
  unfold map_keys.
  induction m as [|[[k' v']|] m IH]; csimpl.
  - done.
  - destruct (decide (k' = k)) as [->|Hne]; csimpl.
    + rewrite decide_True by (by left). done.
    + rewrite IH. destruct (decide (k ∈ omap _ m)) as [Hin|Hnin].
      * rewrite decide_True by (by right). done.
      * rewrite decide_False; [done|].
        intros [Heq|Hin]%elem_of_cons; [by apply Hne | by apply Hnin].
  - done.
Qed.

(** The keys of a map stay pairwise distinct. *)
Lemma map_set_NoDup (m : MapData) k v :
  NoDup (map_keys m) → NoDup (map_keys (map_set m k v)).
Proof.
  intros Hnd. rewrite map_keys_set. case_decide as Hin; [done|].
  apply NoDup_app. split; [done|]. split; [|apply NoDup_singleton].
  intros x Hx ->%list_elem_of_singleton. by apply Hin.
Qed.

Lemma map_delete_NoDup (m : MapData) k :
  NoDup (map_keys m) → NoDup (map_keys (map_delete m k)).
Proof. intros Hnd. rewrite map_keys_delete. by apply NoDup_filter. Qed.

Lemma map_delete_first_eq (m : MapData) k :
  NoDup (map_keys m) → map_delete_first m k = map_delete m k.
Proof.
  unfold map_keys.
  induction m as [|[[k' v']|] m IH]; csimpl; intros Hnd; [done| |].
  - apply NoDup_cons in Hnd as [Hnin Hnd]. case_decide; subst.
    + f_equal. symmetry. apply map_delete_absent. by apply map_get_keys.
    + f_equal. by apply IH.
  - f_equal. by apply IH.
Qed.


Lemma ledger_inv_set (m : MapData) k v :
  ledger_inv m = true → v ≠ [] → ledger_inv (map_set m k v) = true.
Proof.
  unfold ledger_inv. intros Hm Hv.
  induction m as [|[[k' v']|] m IH]; simpl in *.
  - rewrite andb_true_r. by apply negb_true_iff, bool_decide_eq_false.
  - apply andb_prop in Hm as [Hen Hm]. case_decide; simpl.
    + rewrite Hm, andb_true_r. by apply negb_true_iff, bool_decide_eq_false.
    + by rewrite Hen, IH.
  - auto.
Qed.

Lemma ledger_inv_delete (m : MapData) k :
  ledger_inv m = true → ledger_inv (map_delete m k) = true.
Proof.
  unfold ledger_inv, map_delete.
  induction m as [|[[k' v']|] m IH]; simpl; try done.
  intros [Hen Hm]%andb_prop. case_decide; simpl; [by auto|].
  by rewrite Hen, IH.
Qed.

(** Emptying the entry of [k] right after giving it a value leaves the other
    entries as they were. *)
Lemma ledger_inv_set_delete (m : MapData) k v :
  ledger_inv m = true → ledger_inv (map_delete (map_set m k v) k) = true.
Proof.
  unfold ledger_inv, map_delete.
  induction m as [|[[k' v']|] m IH]; simpl.
  - intros _. by case_decide.
  - intros [Hen Hm]%andb_prop. case_decide; simpl.
    + case_decide; [|done]. simpl. by apply ledger_inv_delete.
    + case_decide; [done|]. simpl. by rewrite Hen, IH.
  - auto.
Qed.

(** ** The shared environment *)

Lemma deref_store_eq e l h : deref (store e l h) l = h.
Proof. unfold deref, store. simpl. by rewrite lookup_insert_eq. Qed.

Lemma deref_store_ne e l l' h : l ≠ l' → deref (store e l h) l' = deref e l'.
Proof. intros. unfold deref, store. simpl. by rewrite lookup_insert_ne. Qed.

Lemma highlight_delete_registry e gh r :
  highlights (highlight_delete e gh r).2 = highlights e.
Proof. unfold highlight_delete. by destruct (highlight_has e gh r). Qed.

Lemma highlight_delete_console e gh r :
  console (highlight_delete e gh r).2 = console e.
Proof. unfold highlight_delete. by destruct (highlight_has e gh r). Qed.

Lemma highlight_delete_found e gh r :
  (highlight_delete e gh r).1 = highlight_has e gh r.
Proof. unfold highlight_delete. by destruct (highlight_has e gh r). Qed.

Lemma highlight_delete_ranges e gh r x :
  x ∈ h_ranges (deref (highlight_delete e gh r).2 gh)
  ↔ x ∈ h_ranges (deref e gh) ∧ x ≠ r.
Proof.
  unfold highlight_delete. destruct (highlight_has e gh r) eqn:Hr; simpl.
  - rewrite deref_store_eq. simpl. unfold set_delete.
    by rewrite list_elem_of_filter, (comm and).
  - apply set_has_false in Hr. split; [|tauto].
    intros Hx. split; [done|]. by intros ->.
Qed.

Lemma deleteAll_loop_cons gh r (set : RangeSet) w e :
  deleteAll_loop gh (r :: set) w e =
  deleteAll_loop gh set (negb (highlight_delete e gh r).1)
                 (highlight_delete e gh r).2.
Proof.
  unfold deleteAll_loop. simpl. by destruct (highlight_delete e gh r).
Qed.

Lemma deleteAll_loop_snoc gh r (set : RangeSet) w e :
  deleteAll_loop gh (set ++ [r]) w e =
  let e1 := (deleteAll_loop gh set w e).2 in
  (negb (highlight_has e1 gh r), (highlight_delete e1 gh r).2).
Proof.
  unfold deleteAll_loop. rewrite foldl_snoc.
  destruct (foldl _ _ set) as [w1 e1]. simpl.
  rewrite <- highlight_delete_found. by destruct (highlight_delete e1 gh r).
Qed.

Lemma deleteAll_loop_registry gh (set : RangeSet) w e :
  highlights (deleteAll_loop gh set w e).2 = highlights e.
Proof.
  revert w e. induction set as [|r set IH]; intros w e; [done|].
  by rewrite deleteAll_loop_cons, IH, highlight_delete_registry.
Qed.

Lemma deleteAll_loop_console gh (set : RangeSet) w e :
  console (deleteAll_loop gh set w e).2 = console e.
Proof.
  revert w e. induction set as [|r set IH]; intros w e; [done|].
  by rewrite deleteAll_loop_cons, IH, highlight_delete_console.
Qed.

Lemma deleteAll_loop_ranges gh (set : RangeSet) w e x :
  x ∈ h_ranges (deref (deleteAll_loop gh set w e).2 gh)
  ↔ x ∈ h_ranges (deref e gh) ∧ x ∉ set.
Proof.
  revert w e. induction set as [|r set IH]; intros w e.
  - simpl. split; [|tauto]. intros Hx. split; [done|]. apply not_elem_of_nil.
  - rewrite deleteAll_loop_cons, IH, highlight_delete_ranges, not_elem_of_cons.
    tauto.
Qed.

(** ** [deleteAll] and the loop of [clear] *)

Lemma deleteAll_absent name (m : MapData) e :
  map_get m name = None → deleteAll name m e = (false, m, e).
Proof. intros H. unfold deleteAll. by rewrite H. Qed.

Lemma deleteAll_present name (m : MapData) e set :
  map_get m name = Some set →
  (deleteAll name m e).1 = (true, map_delete m name).
Proof.
  intros H. unfold deleteAll. rewrite H.
  by destruct (match registry_get e name with
               | Some gh => deleteAll_loop gh set false e
               | None => (true, e)
               end).
Qed.

Lemma deleteAll_ledger name (m : MapData) e :
  (deleteAll name m e).1.2 = map_delete m name.
Proof.
  destruct (map_get m name) as [set|] eqn:H.
  - by rewrite (deleteAll_present _ _ _ _ H).
  - rewrite (deleteAll_absent _ _ _ H). simpl. by rewrite map_delete_absent.
Qed.

Lemma deleteAll_step_ledger st name :
  (deleteAll_step st name).1 = map_delete st.1 name.
Proof.
  unfold deleteAll_step. rewrite <- (deleteAll_ledger name st.1 st.2).
  by destruct (deleteAll name st.1 st.2) as [[b m'] e'].
Qed.

Lemma deleteAll_step_absent st name :
  map_get st.1 name = None → deleteAll_step st name = st.
Proof.
  intros H. unfold deleteAll_step. rewrite (deleteAll_absent _ _ _ H).
  by destruct st.
Qed.

Lemma foldl_deleteAll_skip ks k st :
  map_get st.1 k = None →
  foldl deleteAll_step st ks = foldl deleteAll_step st (filter (λ x, x ≠ k) ks).
Proof.
  revert st. induction ks as [|k0 ks IH]; intros st Hk; [done|].
  destruct (decide (k0 = k)) as [->|Hne].
  - rewrite filter_cons_False by (intros H; by apply H). simpl.
    rewrite deleteAll_step_absent by done. by apply IH.
  - rewrite filter_cons_True by done. simpl. apply IH.
    rewrite deleteAll_step_ledger.
    by rewrite map_get_delete_ne.
Qed.

Lemma map_delete_empty_slots (pre : MapData) k :
  Forall (λ en, en = None) pre → map_delete pre k = pre.
Proof.
  unfold map_delete. induction 1 as [|en pre -> _ IH]; simpl; [done|].
  by rewrite IH.
Qed.

Lemma map_get_empty_slots (pre rest : MapData) k :
  Forall (λ en, en = None) pre → map_get (pre ++ rest) k = map_get rest k.
Proof. induction 1 as [|en pre -> _ IH]; simpl; done. Qed.

Lemma clear_loop_end (m : MapData) e fuel :
  clear_loop fuel (length m) m e = Some (m, e).
Proof.
  assert (m !! length m = None) as Hnone by (by apply lookup_ge_None).
  destruct fuel; simpl; by rewrite Hnone.
Qed.

(** The live iterator, standing at the end of the emptied slots [pre], calls
    [deleteAll] for the keys that a snapshot of the remaining entries holds,
    and does not run out of fuel. *)
Lemma clear_loop_snapshot (rest pre : MapData)
    e fuel :
  Forall (λ en, en = None) pre → length rest ≤ fuel →
  clear_loop fuel (length pre) (pre ++ rest) e
  = Some (foldl deleteAll_step (pre ++ rest, e) (map_keys rest)).
Proof.
  revert rest pre e.
  induction fuel as [|fuel IH]; intros rest pre e Hpre Hfuel;
    destruct rest as [|[[k v]|] rest]; try (simpl in Hfuel; lia).
  - rewrite app_nil_r. apply clear_loop_end.
  - rewrite app_nil_r. apply clear_loop_end.
  - simpl. rewrite list_lookup_middle by done.
    assert (map_get (pre ++ Some (k, v) :: rest) k = Some v) as Hget.
    { rewrite map_get_empty_slots by done. simpl. by case_decide. }
    pose proof (deleteAll_present _ _ e _ Hget) as Hdel.
    unfold deleteAll_step at 2. simpl.
    destruct (deleteAll k (pre ++ Some (k, v) :: rest) e) as [[b m'] e'].
    simpl in Hdel. injection Hdel as -> ->.
    rewrite map_delete_app, map_delete_empty_slots by done.
    simpl. rewrite decide_True by done.
    replace (pre ++ None :: map_delete rest k)
      with ((pre ++ [None]) ++ map_delete rest k)
      by (by rewrite <- app_assoc).
    replace (S (length pre)) with (length (pre ++ [None]))
      by (rewrite length_app; simpl; lia).
    rewrite IH.
    + f_equal. rewrite map_keys_delete. symmetry.
      apply foldl_deleteAll_skip. simpl.
      rewrite map_get_empty_slots
        by (apply Forall_app; split; [done | by constructor]).
      apply map_get_delete_eq.
    + apply Forall_app; split; [done | by constructor].
    + unfold map_delete. rewrite length_map. simpl in Hfuel. lia.
  - simpl. rewrite list_lookup_middle by done.
    replace (pre ++ None :: rest) with ((pre ++ [None]) ++ rest)
      by (by rewrite <- app_assoc).
    replace (S (length pre)) with (length (pre ++ [None]))
      by (rewrite length_app; simpl; lia).
    apply IH.
    + apply Forall_app; split; [done | by constructor].
    + simpl in Hfuel. lia.
Qed.

Lemma foldl_deleteAll_keys ks st k :
  k ∈ map_keys (foldl deleteAll_step st ks).1 ↔ k ∈ map_keys st.1 ∧ k ∉ ks.
Proof.
  revert st. induction ks as [|k0 ks IH]; intros st; simpl.
  - split; [|tauto]. intros Hk. split; [done|]. apply not_elem_of_nil.
  - rewrite IH, deleteAll_step_ledger, map_keys_delete, list_elem_of_filter,
      not_elem_of_cons. tauto.
Qed.

Lemma clear_snapshot_keys (m : MapData) e :
  map_keys (clear_snapshot m e).1 = [].
Proof.
  apply elem_of_nil_inv. intros k. unfold clear_snapshot.
  rewrite foldl_deleteAll_keys. simpl. tauto.
Qed.

Lemma clear_total (m : MapData) e :
  clear m e = Some (clear_snapshot m e).
Proof.
  unfold clear, clear_snapshot.
  by apply (clear_loop_snapshot m [] e (length m)).
Qed.

Lemma map_keys_nil_get (m : MapData) k :
  map_keys m = [] → map_get m k = None.
Proof. intros H. apply map_get_keys. rewrite H. apply not_elem_of_nil. Qed.

Lemma shared_has_console_warn e d name x :
  shared_has (console_warn e d) name x = shared_has e name x.
Proof. done. Qed.

(** What [deleteAll] leaves of the shared collection of [name]: the ranges
    that were there and are not in the set the instance held. *)
Lemma deleteAll_shared_has name (m : MapData) e
    (set : RangeSet) x :
  map_get m name = Some set →
  shared_has (deleteAll name m e).2 name x
  = shared_has e name x && negb (set_has set x).
Proof.
  intros H. unfold deleteAll. rewrite H.
  destruct (registry_get e name) as [gh|] eqn:Hreg.
  - pose proof (deleteAll_loop_registry gh set false e) as Hr.
    pose proof (deleteAll_loop_ranges gh set false e x) as Hx.
    destruct (deleteAll_loop gh set false e) as [w e1]. simpl in *.
    assert (shared_has e1 name x
            = shared_has e name x && negb (set_has set x)) as Hs.
    { unfold shared_has, registry_get in *. rewrite Hr, Hreg.
      unfold highlight_has, set_has.
      rewrite <- bool_decide_not, <- bool_decide_and.
      by apply bool_decide_ext. }
    by destruct w.
  - simpl. rewrite shared_has_console_warn. unfold shared_has.
    by rewrite Hreg.
Qed.

Lemma has_true name range (m : MapData) :
  has name range m = true ↔ ∃ set, map_get m name = Some set ∧ range ∈ set.
Proof.
  unfold has. destruct (map_get m name) as [set|].
  - rewrite set_has_true. split; [by eauto|]. by intros (? & [= <-] & ?).
  - split; [done|]. by intros (? & ? & ?).
Qed.

(** ** [delete] *)

Lemma delete_not_owned name range (m : MapData) e :
  has name range m = false → delete name range m e = (false, m, e).
Proof.
  unfold has, delete. destruct (map_get m name) as [set|]; [|done].
  by intros ->.
Qed.

Lemma delete_owned name range (m : MapData) e
    (set : RangeSet) :
  map_get m name = Some set → set_has set range = true →
  (delete name range m e).1
  = (true,
     if decide (set_size (set_delete set range) = 0)
     then map_delete (map_set m name (set_delete set range)) name
     else map_set m name (set_delete set range)).
Proof.
  intros Hget Hhas. unfold delete. rewrite Hget, Hhas. simpl.
  destruct (registry_get e name) as [gh|]; [|done].
  by destruct (highlight_has e gh range).
Qed.

Lemma delete_owned_get name range (m : MapData) e (set : RangeSet) :
  map_get m name = Some set → set_has set range = true →
  map_get (delete name range m e).1.2 name
  = if decide (set_delete set range = []) then None
    else Some (set_delete set range).
Proof.
  intros Hget Hin. rewrite (delete_owned _ _ _ _ _ Hget Hin). simpl.
  assert (set_size (set_delete set range) = 0 ↔ set_delete set range = [])
    as Hsize by (unfold set_size; apply length_zero_iff_nil).
  destruct (decide (set_size (set_delete set range) = 0)) as [Hz|Hz].
  - rewrite decide_True by (by apply Hsize). apply map_get_delete_eq.
  - rewrite decide_False by (intros ?; by apply Hz, Hsize).
    apply map_get_set_eq.
Qed.

Lemma delete_owned_other name name' range (m : MapData) e (set : RangeSet) :
  map_get m name = Some set → set_has set range = true → name' ≠ name →
  map_get (delete name range m e).1.2 name' = map_get m name'.
Proof.
  intros Hget Hin Hne. rewrite (delete_owned _ _ _ _ _ Hget Hin). simpl.
  case_decide.
  - by rewrite map_get_delete_ne, map_get_set_ne.
  - by rewrite map_get_set_ne.
Qed.

(** Whatever the registry held, it does not hold [range] under [name] after
    [delete(name, range)]. *)
Lemma delete_has_gone name range (m : MapData) e :
  has name range (delete name range m e).1.2 = false.
Proof.
  destruct (has name range m) eqn:Hhas.
  - apply has_true in Hhas as (set & Hget & Hin%set_has_true).
    unfold has. rewrite (delete_owned_get _ _ _ _ _ Hget Hin).
    case_decide; [done|]. rewrite set_has_delete.
    by rewrite bool_decide_eq_true_2, andb_false_r.
  - by rewrite delete_not_owned.
Qed.

(** ** [add] *)

Lemma add_shared_normal name range priority (set : RangeSet)
    (m : MapData) e :
  shared_has e name range = false →
  (add_shared name range priority set m e).1
  = (Normal true, map_set m name (set_add set range)).
Proof.
  unfold shared_has, add_shared.
  destruct (registry_get e name) as [gh|]; [|done].
  by intros ->.
Qed.

Lemma add_shared_throw name range priority (set : RangeSet)
    (m : MapData) e :
  shared_has e name range = true →
  add_shared name range priority set m e = (Throw already_registered, m, e).
Proof.
  unfold shared_has, add_shared.
  destruct (registry_get e name) as [gh|]; [|done].
  by intros ->.
Qed.

Lemma add_throw_iff name range priority
    (m : MapData) e :
  is_throw (add name range priority m e).1.1 = true
  ↔ has name range m = false ∧ shared_has e name range = true.
Proof.
  unfold add, has.
  destruct (map_get m name) as [set|]; [destruct (set_has set range)|].
  - simpl. split; [done | by intros [? ?]].
  - destruct (shared_has e name range) eqn:Hs.
    + rewrite add_shared_throw by done. by simpl.
    + rewrite add_shared_normal by done. simpl.
      split; [done | by intros [? ?]].
  - destruct (shared_has e name range) eqn:Hs.
    + rewrite add_shared_throw by done. by simpl.
    + rewrite add_shared_normal by done. simpl.
      split; [done | by intros [? ?]].
Qed.

(** * The claims *)

(** ** The ledger invariant (C1) *)

(** Every call that completes normally keeps the invariant of the ledger. *)
Lemma add_normal_ledger_inv name range priority
    (m : MapData) e b :
  ledger_inv m = true →
  (add name range priority m e).1.1 = Normal b →
  ledger_inv (add name range priority m e).1.2 = true.
Proof.
  intros Hinv. unfold add.
  destruct (map_get m name) as [set|]; [destruct (set_has set range)|];
    [done| |]; destruct (shared_has e name range) eqn:Hs;
    try (by rewrite add_shared_throw by done);
    rewrite add_shared_normal by done; simpl; intros _.
  - apply ledger_inv_set; [done | apply set_add_nonempty].
  - assert (map_set (map_set m name []) name (set_add [] range)
            = map_set m name (set_add [] range)) as ->.
    { clear. induction m as [|[[k v]|] m IH]; simpl; repeat case_decide;
        simpl; repeat case_decide; try done; by f_equal. }
    apply ledger_inv_set; [done | apply set_add_nonempty].
Qed.

Lemma delete_ledger_inv name range (m : MapData) e :
  ledger_inv m = true → ledger_inv (delete name range m e).1.2 = true.
Proof.
  intros Hinv. destruct (has name range m) eqn:Hhas.
  - apply has_true in Hhas as (set & Hget & Hin).
    apply set_has_true in Hin.
    rewrite (delete_owned _ _ _ _ _ Hget Hin). simpl.
    case_decide as Hsize.
    + by apply ledger_inv_set_delete.
    + apply ledger_inv_set; [done|]. intros Hnil. apply Hsize.
      unfold set_size. by rewrite Hnil.
  - by rewrite delete_not_owned.
Qed.

Lemma deleteAll_ledger_inv name (m : MapData) e :
  ledger_inv m = true → ledger_inv (deleteAll name m e).1.2 = true.
Proof. intros. rewrite deleteAll_ledger. by apply ledger_inv_delete. Qed.

Lemma clear_ledger_inv (m : MapData) e m' e' :
  clear m e = Some (m', e') → ledger_inv m' = true.
Proof.
  rewrite clear_total. intros [= Hc].
  pose proof (clear_snapshot_keys m e) as Hkeys. rewrite Hc in Hkeys.
  simpl in Hkeys. clear Hc. unfold ledger_inv, map_keys in *.
  induction m' as [|[[k v]|] m' IH]; simpl in *; [done|done|auto].
Qed.

(** The one way out of the invariant: [add] under a name that is not yet a
    key, colliding in the shared collection, throws with the empty set it has
    just registered still in [#ranges].  Under a name that is a key already,
    the throwing [add] leaves [#ranges] as it was. *)
Lemma add_throw_new_name name range priority (m : MapData) e :
  map_get m name = None → shared_has e name range = true →
  add name range priority m e
  = (Throw already_registered, map_set m name [], e) ∧
  ledger_inv (map_set m name []) = false.
Proof.
  intros Hget Hs. split.
  - unfold add. rewrite Hget. by apply add_shared_throw.
  - clear Hs. unfold ledger_inv.
    induction m as [|[[k v]|] m IH]; simpl in *; [done| |by auto].
    destruct (decide (k = name)); [done|]. simpl.
    rewrite IH by done. apply andb_false_r.
Qed.

Lemma add_throw_known_name name range priority (m : MapData) e
    (set : RangeSet) :
  map_get m name = Some set → has name range m = false →
  shared_has e name range = true →
  add name range priority m e = (Throw already_registered, m, e).
Proof.
  intros Hget Hhas Hs. unfold add, has in *. rewrite Hget in *.
  rewrite Hhas. by apply add_shared_throw.
Qed.

(** C1, at the input where the code departs from it: a fresh registry calls
    [add("x", range7)] while the shared collection of ["x"] already holds that
    range.  [add] throws, but it has already registered an empty set under
    ["x"] in [#ranges] and leaves it there: the ledger has a key whose set is
    empty, and a later [deleteAll("x")] answers [true] although nothing was
    owned. *)
Theorem add_throw_leaves_empty_set :
  ledger_inv [] = true ∧
  add "x" 7 0 [] collision_env
  = (Throw already_registered, [Some ("x", [])], collision_env) ∧
  ledger_inv (add "x" 7 0 [] collision_env).1.2 = false ∧
  (deleteAll "x" (add "x" 7 0 [] collision_env).1.2 collision_env).1.1 = true.
Proof. repeat split; vm_compute; reflexivity. Qed.

(** ** The diagnostic of [deleteAll] (C2) *)

(** What the code does: when the collection exists, the diagnostic is decided
    by the removal of the last range of the set alone. *)
Lemma deleteAll_warns_on_last name (m : MapData) e
    (set : RangeSet) last gh :
  map_get m name = Some (set ++ [last]) →
  registry_get e name = Some gh →
  console (deleteAll name m e).2
  = if highlight_has (deleteAll_loop gh set false e).2 gh last
    then console e
    else console e ++ [SomeDeletedElsewhere name].
Proof.
  intros Hget Hreg. unfold deleteAll. rewrite Hget, Hreg.
  rewrite deleteAll_loop_snoc. simpl.
  destruct (highlight_has _ gh last); simpl;
    by rewrite highlight_delete_console, deleteAll_loop_console.
Qed.

(** C2, at the input where the code departs from it: the removal of range [1]
    does not find its target, the removal of range [2] then does and
    overwrites [warn], and [deleteAll] emits no diagnostic. *)
Theorem deleteAll_silent_after_failed_removal :
  has "x" 1 [Some ("x", [1; 2])] = true ∧
  has "x" 2 [Some ("x", [1; 2])] = true ∧
  shared_has raced_env "x" 1 = false ∧
  (highlight_delete raced_env 0 1).1 = false ∧
  (deleteAll "x" [Some ("x", [1; 2])] raced_env).1 = (true, [None]) ∧
  console (deleteAll "x" [Some ("x", [1; 2])] raced_env).2 = [] ∧
  console (deleteAll "x" [Some ("x", [2; 1])] raced_env).2
  = [SomeDeletedElsewhere "x"].
Proof. repeat split; vm_compute; reflexivity. Qed.

(** ** The fatal error of [add] (C3, C10) *)

(** C3: a call throws if and only if it is an [add] of a range that this
    registry does not own under the name while the shared registry has a
    collection for the name that holds the range; every call completes, and
    no other call throws. *)
Theorem throw_iff_ownership_collision c
    (m : MapData) e :
  ∃ r m' e', run c m e = Some (r, m', e') ∧
    (is_throw r = true
     ↔ ∃ name range priority, c = CallAdd name range priority ∧
         has name range m = false ∧ shared_has e name range = true).
Proof.
  destruct c as [name range priority|name range|name range|name|]; simpl.
  - pose proof (add_throw_iff name range priority m e) as Hiff.
    destruct (add name range priority m e) as [[r m'] e']. simpl in Hiff.
    exists (completion_map VBool r), m', e'. split; [done|].
    assert (is_throw (completion_map VBool r) = is_throw r) as ->
      by (by destruct r).
    rewrite Hiff. split; [by eauto 6|].
    by intros (? & ? & ? & [= <- <- <-] & ? & ?).
  - eexists _, _, _. split; [done|]. simpl.
    split; [done | by intros (? & ? & ? & ? & _)].
  - destruct (delete name range m e) as [[b m'] e'].
    eexists _, _, _. split; [done|]. simpl.
    split; [done | by intros (? & ? & ? & ? & _)].
  - destruct (deleteAll name m e) as [[b m'] e'].
    eexists _, _, _. split; [done|]. simpl.
    split; [done | by intros (? & ? & ? & ? & _)].
  - rewrite clear_total. simpl. destruct (clear_snapshot m e) as [m' e'].
    eexists _, _, _. split; [done|]. simpl.
    split; [done | by intros (? & ? & ? & ? & _)].
Qed.

(** C10: when [add] throws, the environment it leaves is the one it was given
    (the registry, every [Highlight] with its ranges and its priority, and the
    console), and the shared registry had a collection for the name. *)
Theorem add_throw_env_unchanged name range priority
    (m : MapData) e msg m' e' :
  add name range priority m e = (Throw msg, m', e') →
  e' = e ∧ is_Some (registry_get e name) ∧ shared_has e name range = true.
Proof.
  intros Hadd.
  assert (is_throw (add name range priority m e).1.1 = true) as Hthrow
    by (by rewrite Hadd).
  apply add_throw_iff in Hthrow as [Hhas Hs]. split; [|split; [|done]].
  - unfold add, has in *.
    destruct (map_get m name) as [set|]; [rewrite Hhas in Hadd|];
      rewrite add_shared_throw in Hadd by done; congruence.
  - unfold shared_has in Hs. by destruct (registry_get e name).
Qed.

Lemma add_throw_env_unchanged_witness :
  add "x" 7 5 [] collision_env
  = (Throw already_registered, [Some ("x", [])], collision_env) ∧
  (collision_env = collision_env ∧ is_Some (registry_get collision_env "x") ∧
   shared_has collision_env "x" 7 = true).
Proof.
  split; [vm_compute; reflexivity|].
  apply (add_throw_env_unchanged "x" 7 5 [] collision_env
           already_registered [Some ("x", [])] collision_env).
  vm_compute; reflexivity.
Defined.

(** ** Two registries over one [CSS.highlights] (C4) *)



(** ** [deleteAll] (C5) *)



(** ** [clear] (C6) *)

(** C6: [clear] returns, and what it leaves is what calling [deleteAll] for
    every name of a snapshot of the keys, taken before the first call, leaves:
    the walk over the live iterator visits each name that was a key when
    [clear] was called.  Afterwards [#ranges] has no key, and [has] is [false]
    for every name and range. *)
Theorem clear_deletes_every_name (m : MapData) e :
  ∃ m' e',
    clear m e = Some (m', e') ∧
    clear_snapshot m e = (m', e') ∧
    foldl deleteAll_step (m, e) (map_keys m) = (m', e') ∧
    map_keys m' = [] ∧
    map_size m' = 0 ∧
    ∀ name range, has name range m' = false.
Proof.
  pose proof (clear_snapshot_keys m e) as Hkeys.
  rewrite clear_total. unfold clear_snapshot in *.
  destruct (foldl deleteAll_step (m, e) (map_keys m)) as [m' e'].
  simpl in Hkeys. exists m', e'. repeat split; try done.
  - unfold map_size. by rewrite Hkeys.
  - intros name range. unfold has. by rewrite map_keys_nil_get.
Qed.

(** A ledger with an emptied slot between two names: both names are visited.
    The shared registry has no collection for ["a"], which is reported; under
    ["x"] range [1] is absent from the collection but range [2] comes last,
    and nothing is reported. *)
Example clear_two_names :
  (λ st, (st.1, console st.2))
    <$> clear [Some ("a", [1]); None; Some ("x", [1; 2])] raced_env
  = Some ([None; None; None], [SomeDeletedElsewhere "a"]).
Proof. vm_compute. reflexivity. Qed.

(** ** [delete] (C7) *)

(** C7: when the registry does not own [range] under [name], [delete] answers
    [false] and leaves [#ranges] and the environment as they were.  When it
    does, [delete] answers [true] in every environment; the set of [name]
    loses [range], the key [name] goes if the set is then empty, and the
    other keys keep their sets. *)
Theorem delete_result name range (m : MapData) e :
  (has name range m = false → delete name range m e = (false, m, e)) ∧
  (has name range m = true →
   ∃ set, map_get m name = Some set ∧
     (delete name range m e).1.1 = true ∧
     map_get (delete name range m e).1.2 name
     = (if decide (set_delete set range = []) then None
        else Some (set_delete set range)) ∧
     has name range (delete name range m e).1.2 = false ∧
     (∀ range', range' ≠ range →
        has name range' (delete name range m e).1.2 = has name range' m) ∧
     (∀ name', name' ≠ name →
        map_get (delete name range m e).1.2 name' = map_get m name')).
Proof.
  split; [apply delete_not_owned|].
  intros (set & Hget & Hin%set_has_true)%has_true.
  exists set. split; [done|].
  split; [by rewrite (delete_owned _ _ _ _ _ Hget Hin)|].
  split; [by apply delete_owned_get|].
  split; [apply delete_has_gone|]. split.
  - intros range' Hne. unfold has.
    rewrite (delete_owned_get _ _ _ _ _ Hget Hin), Hget.
    case_decide as Hnil.
    + destruct (set_has set range') eqn:Hr; [|done].
      apply set_has_true in Hr.
      assert (range' ∈ set_delete set range) as Hin'
        by (unfold set_delete; by apply list_elem_of_filter).
      rewrite Hnil in Hin'. by apply not_elem_of_nil in Hin'.
    + rewrite set_has_delete.
      by rewrite bool_decide_eq_false_2, andb_true_r.
  - intros name' Hne. by apply (delete_owned_other _ _ _ _ _ set).
Qed.

Lemma delete_result_witness :
  has "x" 3 [Some ("x", [1; 2])] = false ∧
  has "x" 1 [Some ("x", [1; 2])] = true ∧
  delete "x" 3 [Some ("x", [1; 2])] raced_env
  = (false, [Some ("x", [1; 2])], raced_env) ∧
  (delete "x" 1 [Some ("x", [1; 2])] raced_env).1.1 = true ∧
  has "x" 1 (delete "x" 1 [Some ("x", [1; 2])] raced_env).1.2 = false.
Proof.
  pose proof (delete_result "x" 3 [Some ("x", [1; 2])] raced_env)
    as [Hfalse _].
  pose proof (delete_result "x" 1 [Some ("x", [1; 2])] raced_env)
    as [_ Htrue].
  destruct (Htrue eq_refl) as (set & _ & Hb & _ & Hgone & _).
  split; [reflexivity|]. split; [reflexivity|].
  split; [apply Hfalse; reflexivity|]. split; [exact Hb | exact Hgone].
Defined.

(** ** [add], [has] and [delete] together (C8, C9) *)

(** C8: after an [add(name, range)] that answers [true],
    [has(name, range)] is [true]; after a [delete(name, range)] that follows,
    in whatever environment, [has(name, range)] is [false]. *)
Theorem add_has_delete name range priority
    (m : MapData) e m1 e1 :
  add name range priority m e = (Normal true, m1, e1) →
  has name range m1 = true ∧
  ∀ e2, (delete name range m1 e2).1.1 = true ∧
        has name range (delete name range m1 e2).1.2 = false.
Proof.
  intros Hadd.
  assert (has name range m1 = true) as Hhas.
  { assert (is_throw (add name range priority m e).1.1 = false) as Hnt
      by (by rewrite Hadd).
    unfold add in *.
    destruct (map_get m name) as [set|]; [destruct (set_has set range)|];
      [done| |];
      (destruct (shared_has e name range) eqn:Hs;
       [by rewrite add_shared_throw in Hnt by done|]);
      pose proof (f_equal fst Hadd) as Hfst;
      rewrite add_shared_normal in Hfst by done; simpl in Hfst;
      injection Hfst as <-; unfold has; rewrite map_get_set_eq;
      rewrite set_has_add; by rewrite bool_decide_eq_true_2, orb_true_r. }
  split; [done|]. intros e2. split; [|apply delete_has_gone].
  apply has_true in Hhas as (set & Hget & Hin%set_has_true).
  by rewrite (delete_owned _ _ _ _ _ Hget Hin).
Qed.

Lemma add_has_delete_witness :
  add "x" 1 0 [] (mkEnv ∅ ∅ [])
  = (Normal true, (add "x" 1 0 [] (mkEnv ∅ ∅ [])).1.2,
     (add "x" 1 0 [] (mkEnv ∅ ∅ [])).2) ∧
  has "x" 1 (add "x" 1 0 [] (mkEnv ∅ ∅ [])).1.2 = true ∧
  has "x" 1 (delete "x" 1 (add "x" 1 0 [] (mkEnv ∅ ∅ [])).1.2
               (add "x" 1 0 [] (mkEnv ∅ ∅ [])).2).1.2 = false.
Proof.
  assert (add "x" 1 0 [] (mkEnv ∅ ∅ [])
          = (Normal true, (add "x" 1 0 [] (mkEnv ∅ ∅ [])).1.2,
             (add "x" 1 0 [] (mkEnv ∅ ∅ [])).2)) as Hadd
    by (vm_compute; reflexivity).
  destruct (add_has_delete "x" 1 0 [] (mkEnv ∅ ∅ []) _ _ Hadd)
    as [Hhas Hdel].
  split; [exact Hadd|]. split; [exact Hhas|].
  exact (proj2 (Hdel _)).
Defined.

(** C9: when the registry does not own [range] under [name] and no collision
    stands in the way, the first [add(name, range)] answers [true]; a second
    one answers [false] and changes neither [#ranges] nor the environment it
    runs in, whatever the priority; and the set of [name] holds [range]
    exactly once. *)
Theorem add_twice name range priority priority'
    (m : MapData) e :
  has name range m = false →
  shared_has e name range = false →
  ∃ m1 e1,
    add name range priority m e = (Normal true, m1, e1) ∧
    (∀ e2, add name range priority' m1 e2 = (Normal false, m1, e2)) ∧
    ∃ set, map_get m1 name = Some set ∧
           count_occ Nat.eq_dec set range = 1.
Proof.
  intros Hhas Hs.
  assert (∃ set0 : list nat, (range ∉ set0) ∧
            (add name range priority m e).1
            = (Normal true, map_set m name (set0 ++ [range])))
    as (set0 & Hnin & Hadd).
  { unfold add, has in *.
    destruct (map_get m name) as [set|].
    - rewrite Hhas. exists set. split; [by apply set_has_false|].
      rewrite add_shared_normal by done. unfold set_add. by rewrite Hhas.
    - exists []. split; [apply not_elem_of_nil|].
      rewrite add_shared_normal by done. f_equal.
      clear. induction m as [|[[k v]|] m IH]; simpl; repeat case_decide;
        simpl; repeat case_decide; try done; by f_equal. }
  destruct (add name range priority m e) as [[r m1] e1]. simpl in Hadd.
  injection Hadd as -> ->. eexists _, _. split; [done|].
  assert (set_has (set0 ++ [range]) range = true) as Hin.
  { apply set_has_true, elem_of_app. right. by left. }
  split.
  - intros e2. unfold add. by rewrite map_get_set_eq, Hin.
  - exists (set0 ++ [range]). split; [apply map_get_set_eq|].
    rewrite count_occ_app. simpl.
    destruct (Nat.eq_dec range range); [|done].
    rewrite (proj1 (count_occ_not_In Nat.eq_dec set0 range)); [done|].
    by rewrite <- list_elem_of_In.
Qed.

Lemma add_twice_witness :
  has "x" 1 [] = false ∧
  shared_has (mkEnv ∅ ∅ []) "x" 1 = false ∧
  ∃ m1 e1,
    add "x" 1 0 [] (mkEnv ∅ ∅ []) = (Normal true, m1, e1) ∧
    (∀ e2, add "x" 1 3 m1 e2 = (Normal false, m1, e2)) ∧
    ∃ set, map_get m1 "x" = Some set ∧ count_occ Nat.eq_dec set 1 = 1.
Proof.
  split; [reflexivity|]. split; [reflexivity|].
  apply (add_twice "x" 1 0 3 [] (mkEnv ∅ ∅ [])); reflexivity.
Defined.

(** * Further properties of the methods *)

(** ** What [add] does to the environment *)

Lemma add_shared_env_indep name range priority (set set' : RangeSet)
    (m m' : MapData) e :
  (add_shared name range priority set m e).2
  = (add_shared name range priority set' m' e).2.
Proof.
  unfold add_shared, new_Highlight.
  destruct (registry_get e name) as [gh|]; [|done].
  by destruct (highlight_has e gh range).
Qed.

Lemma add_env_not_owned name range priority (m : MapData) e :
  has name range m = false →
  (add name range priority m e).2
  = (add_shared name range priority [] [] e).2.
Proof.
  unfold add, has. destruct (map_get m name) as [set|].
  - intros ->. apply add_shared_env_indep.
  - intros _. apply add_shared_env_indep.
Qed.

Lemma add_shared_new_env name range priority (set : RangeSet)
    (m : MapData) e :
  registry_get e name = None →
  (add_shared name range priority set m e).2
  = mkEnv (<[name := fresh (dom (heap e))]> (highlights e))
          (<[fresh (dom (heap e))
             := mkHighlight [range] (wrap32 priority)]> (heap e))
          (console e).
Proof.
  intros H. unfold add_shared. rewrite H.
  unfold new_Highlight, registry_set, highlight_set_priority, highlight_add,
    store, deref. simpl.
  rewrite !lookup_insert_eq. simpl. by rewrite !insert_insert_eq.
Qed.

Lemma add_shared_existing_env name range priority (set : RangeSet)
    (m : MapData) e gh :
  registry_get e name = Some gh → highlight_has e gh range = false →
  (add_shared name range priority set m e).2
  = mkEnv (highlights e)
          (<[gh := mkHighlight (h_ranges (deref e gh) ++ [range])
                               (h_priority (deref e gh))]> (heap e))
          (if decide (highlight_priority e gh ≠ priority)
           then console e
                ++ [PriorityMismatch name (highlight_priority e gh) priority]
           else console e).
Proof.
  intros H Hh. unfold add_shared. rewrite H, Hh.
  unfold highlight_has in Hh. unfold highlight_add, store.
  case_decide; simpl; unfold deref, set_add in *; simpl; by rewrite Hh.
Qed.

Lemma add_true_inv name range priority (m : MapData) e m' e' :
  add name range priority m e = (Normal true, m', e') →
  has name range m = false ∧ shared_has e name range = false.
Proof.
  intros Hadd.
  assert (is_throw (add name range priority m e).1.1 = false) as Hnt
    by (by rewrite Hadd).
  destruct (has name range m) eqn:Hhas.
  - unfold add, has in *. destruct (map_get m name) as [set|]; [|done].
    by rewrite Hhas in Hadd.
  - split; [done|]. destruct (shared_has e name range) eqn:Hs; [|done].
    assert (is_throw (add name range priority m e).1.1 = true) as Ht
      by (by apply add_throw_iff).
    congruence.
Qed.

(** The [Highlight] that holds [range] after a successful [add], and what the
    call changed in the collections: nothing but the arrival of [range] in
    that one object. *)
Lemma add_env_effect name range priority (m : MapData) e :
  has name range m = false → shared_has e name range = false →
  ∃ gh,
    registry_get (add name range priority m e).2 name = Some gh ∧
    highlight_has e gh range = false ∧
    (registry_get e name = Some gh
     ∨ registry_get e name = None ∧ heap e !! gh = None) ∧
    (∀ n, n ≠ name →
       registry_get (add name range priority m e).2 n = registry_get e n) ∧
    (∀ l r',
       highlight_has (add name range priority m e).2 l r'
       = highlight_has e l r'
         || bool_decide (l = gh) && bool_decide (r' = range)).
Proof.
  intros Hhas Hs. rewrite add_env_not_owned by done.
  unfold shared_has in Hs.
  destruct (registry_get e name) as [gh|] eqn:Hreg.
  - exists gh. rewrite (add_shared_existing_env _ _ _ _ _ _ gh) by done.
    split; [done|]. split; [done|]. split; [by left|]. split; [done|].
    intros l r'. unfold highlight_has, deref. simpl.
    rewrite lookup_insert. case_decide as Hl; subst; simpl.
    + rewrite bool_decide_eq_true_2 by done. simpl.
      unfold set_has. rewrite <- bool_decide_or. apply bool_decide_ext.
      by rewrite elem_of_app, list_elem_of_singleton.
    + rewrite bool_decide_eq_false_2 by done. by rewrite orb_false_r.
  - assert (heap e !! fresh (dom (heap e)) = None) as Hfresh.
    { apply not_elem_of_dom, is_fresh. }
    exists (fresh (dom (heap e))). rewrite add_shared_new_env by done.
    unfold registry_get in *. simpl.
    split; [by rewrite lookup_insert_eq|].
    split; [unfold highlight_has, deref; by rewrite Hfresh|].
    split; [by right|].
    split; [intros n Hn; by rewrite lookup_insert_ne|].
    intros l r'. unfold highlight_has, deref. simpl.
    rewrite lookup_insert. case_decide as Hl; subst; simpl.
    + rewrite bool_decide_eq_true_2 by done. rewrite Hfresh. simpl.
      unfold set_has. apply bool_decide_ext.
      by rewrite list_elem_of_singleton.
    + rewrite bool_decide_eq_false_2 by done. by rewrite orb_false_r.
Qed.

Lemma add_answers_true name range priority (m : MapData) e :
  has name range m = false → shared_has e name range = false →
  (add name range priority m e).1.1 = Normal true.
Proof.
  intros Hhas Hs. unfold add, has in *.
  destruct (map_get m name) as [set|]; [rewrite Hhas|];
    by rewrite add_shared_normal.
Qed.

(** X1: After an [add] that answered [true], the shared collection of the name
    holds the range, so that an [add] of the same range under the same name by
    any registry that does not own it throws and leaves the environment
    alone. *)
Theorem add_then_foreign_add_throws name range priority (m : MapData) e m' e' :
  add name range priority m e = (Normal true, m', e') →
  shared_has e' name range = true ∧
  ∀ priority2 (m2 : MapData),
    has name range m2 = false →
    (add name range priority2 m2 e').1.1 = Throw already_registered ∧
    (add name range priority2 m2 e').2 = e'.
Proof.
  intros Hadd. pose proof (add_true_inv _ _ _ _ _ _ _ Hadd) as [Hhas Hs].
  assert (shared_has e' name range = true) as Hs'.
  { destruct (add_env_effect name range priority m e Hhas Hs)
      as (gh & Hreg & _ & _ & _ & Hh).
    rewrite Hadd in Hreg, Hh. simpl in *. unfold shared_has.
    rewrite Hreg, Hh. rewrite !bool_decide_eq_true_2 by done.
    apply orb_true_r. }
  split; [done|]. intros priority2 m2 Hhas2.
  unfold add, has in *.
  destruct (map_get m2 name) as [set|]; [rewrite Hhas2|];
    by rewrite add_shared_throw.
Qed.

Lemma add_then_foreign_add_throws_witness :
  add "x" 1 0 [] (mkEnv ∅ ∅ [])
  = (Normal true, [Some ("x", [1])], (add "x" 1 0 [] (mkEnv ∅ ∅ [])).2) ∧
  shared_has (add "x" 1 0 [] (mkEnv ∅ ∅ [])).2 "x" 1 = true ∧
  (add "x" 1 0 [] (add "x" 1 0 [] (mkEnv ∅ ∅ [])).2).1.1
  = Throw already_registered.
Proof.
  assert (add "x" 1 0 [] (mkEnv ∅ ∅ [])
          = (Normal true, [Some ("x", [1])],
             (add "x" 1 0 [] (mkEnv ∅ ∅ [])).2)) as Hadd
    by (vm_compute; reflexivity).
  destruct (add_then_foreign_add_throws "x" 1 0 [] (mkEnv ∅ ∅ []) _ _ Hadd)
    as [Hs Hthrow].
  split; [exact Hadd|]. split; [exact Hs|].
  exact (proj1 (Hthrow 0%Z [] eq_refl)).
Defined.

(** X2: When [CSS.highlights] has no collection for the name, [add] registers a
    new [Highlight] object under it whose only range is the one added and
    whose priority is the requested one as a [long]; it warns about nothing,
    and the other names and the other [Highlight] objects are untouched. *)
Theorem add_creates_collection name range priority (m : MapData) e :
  has name range m = false →
  registry_get e name = None →
  ∃ gh,
    (add name range priority m e).1.1 = Normal true ∧
    heap e !! gh = None ∧
    registry_get (add name range priority m e).2 name = Some gh ∧
    deref (add name range priority m e).2 gh
    = mkHighlight [range] (wrap32 priority) ∧
    console (add name range priority m e).2 = console e ∧
    (∀ n, n ≠ name →
       registry_get (add name range priority m e).2 n = registry_get e n) ∧
    (∀ l, l ≠ gh → heap (add name range priority m e).2 !! l = heap e !! l).
Proof.
  intros Hhas Hreg. exists (fresh (dom (heap e))).
  split.
  { apply add_answers_true; [done|]. unfold shared_has. by rewrite Hreg. }
  rewrite add_env_not_owned, add_shared_new_env by done.
  unfold registry_get, deref. simpl.
  split; [apply not_elem_of_dom, is_fresh|].
  split; [by rewrite lookup_insert_eq|].
  split; [by rewrite lookup_insert_eq|]. split; [done|].
  split; intros x Hx; by rewrite lookup_insert_ne.
Qed.

Lemma add_creates_collection_witness :
  has "y" 1 [] = false ∧
  registry_get raced_env "y" = None ∧
  ∃ gh,
    (add "y" 1 7 [] raced_env).1.1 = Normal true ∧
    heap raced_env !! gh = None ∧
    registry_get (add "y" 1 7 [] raced_env).2 "y" = Some gh ∧
    deref (add "y" 1 7 [] raced_env).2 gh = mkHighlight [1] (wrap32 7) ∧
    console (add "y" 1 7 [] raced_env).2 = console raced_env ∧
    (∀ n, n ≠ "y" →
       registry_get (add "y" 1 7 [] raced_env).2 n
       = registry_get raced_env n) ∧
    (∀ l, l ≠ gh →
       heap (add "y" 1 7 [] raced_env).2 !! l = heap raced_env !! l).
Proof.
  split; [reflexivity|]. split; [reflexivity|].
  apply (add_creates_collection "y" 1 7 [] raced_env); reflexivity.
Defined.



(** ** What [delete] and [deleteAll] do to the environment *)

Lemma delete_env_owned name range (m : MapData) e :
  has name range m = true →
  (delete name range m e).2
  = match registry_get e name with
    | Some gh =>
        if highlight_has e gh range then (highlight_delete e gh range).2
        else console_warn e DeletedElsewhere
    | None => console_warn e DeletedElsewhere
    end.
Proof.
  intros (set & Hget & Hin%set_has_true)%has_true.
  unfold delete. rewrite Hget, Hin. simpl.
  destruct (registry_get e name) as [gh|]; [|done].
  by destruct (highlight_has e gh range).
Qed.

Lemma delete_registry name range (m : MapData) e :
  highlights (delete name range m e).2 = highlights e.
Proof.
  destruct (has name range m) eqn:Hhas.
  - rewrite delete_env_owned by done.
    destruct (registry_get e name) as [gh|]; [|done].
    destruct (highlight_has e gh range) eqn:Hh; [|done].
    apply highlight_delete_registry.
  - by rewrite delete_not_owned.
Qed.

Lemma deleteAll_registry name (m : MapData) e :
  highlights (deleteAll name m e).2 = highlights e.
Proof.
  unfold deleteAll. destruct (map_get m name) as [set|]; [|done].
  destruct (registry_get e name) as [gh|]; [|done].
  pose proof (deleteAll_loop_registry gh set false e) as Hr.
  destruct (deleteAll_loop gh set false e) as [w e1]. simpl in *.
  by destruct w.
Qed.

Lemma highlight_delete_mono e gh r l x :
  highlight_has (highlight_delete e gh r).2 l x = true →
  highlight_has e l x = true.
Proof.
  unfold highlight_delete. destruct (highlight_has e gh r); [|done]. simpl.
  unfold highlight_has. destruct (decide (gh = l)) as [->|Hne].
  - rewrite deref_store_eq. simpl. rewrite set_has_delete.
    by intros [? _]%andb_prop.
  - by rewrite deref_store_ne.
Qed.

Lemma deleteAll_loop_mono gh (set : RangeSet) w e l x :
  highlight_has (deleteAll_loop gh set w e).2 l x = true →
  highlight_has e l x = true.
Proof.
  revert w e. induction set as [|r set IH]; intros w e; [done|].
  rewrite deleteAll_loop_cons. intros H%IH. by eapply highlight_delete_mono.
Qed.

(** [deleteAll] takes ranges out of collections and puts none in. *)
Lemma deleteAll_mono name (m : MapData) e l x :
  highlight_has (deleteAll name m e).2 l x = true →
  highlight_has e l x = true.
Proof.
  unfold deleteAll. destruct (map_get m name) as [set|]; [|done].
  destruct (registry_get e name) as [gh|]; [|done].
  pose proof (deleteAll_loop_mono gh set false e l x) as Hm.
  destruct (deleteAll_loop gh set false e) as [w e1]. simpl in *.
  by destruct w.
Qed.

Lemma deleteAll_console name (m : MapData) e :
  console (deleteAll name m e).2 = console e
  ∨ console (deleteAll name m e).2
    = console e ++ [SomeDeletedElsewhere name].
Proof.
  unfold deleteAll. destruct (map_get m name) as [set|]; [|by left].
  destruct (registry_get e name) as [gh|]; [|by right].
  pose proof (deleteAll_loop_console gh set false e) as Hc.
  destruct (deleteAll_loop gh set false e) as [w e1]. simpl in *.
  destruct w; simpl; rewrite Hc; [by right | by left].
Qed.

(** X4: When the registry owns the range, [delete] removes it from the shared
    collection of the name and from nothing else, without a diagnostic; if the
    collection is missing or no longer holds the range, the one thing that
    happens to the environment is the [DeletedElsewhere] warning. *)
Theorem delete_shared_effect name range (m : MapData) e :
  has name range m = true →
  (shared_has e name range = true →
   console (delete name range m e).2 = console e ∧
   (∀ n r', shared_has (delete name range m e).2 n r' = true →
            shared_has e n r' = true) ∧
   (∀ r', shared_has (delete name range m e).2 name r'
          = shared_has e name r' && negb (bool_decide (r' = range)))) ∧
  (shared_has e name range = false →
   (delete name range m e).2 = console_warn e DeletedElsewhere).
Proof.
  intros Hhas. rewrite delete_env_owned by done. unfold shared_has.
  destruct (registry_get e name) as [gh|] eqn:Hreg; [|by split].
  destruct (highlight_has e gh range) eqn:Hh; split; try done.
  intros _. split; [apply highlight_delete_console|].
  unfold registry_get in *. rewrite !highlight_delete_registry. split.
  - intros n r'. destruct (highlights e !! n) as [l|]; [|done].
    apply highlight_delete_mono.
  - intros r'. rewrite Hreg. unfold highlight_has, set_has.
    rewrite <- bool_decide_not, <- bool_decide_and. apply bool_decide_ext.
    apply highlight_delete_ranges.
Qed.

Lemma delete_shared_effect_witness :
  has "x" 2 [Some ("x", [1; 2])] = true ∧
  has "x" 1 [Some ("x", [1; 2])] = true ∧
  shared_has raced_env "x" 2 = true ∧
  shared_has raced_env "x" 1 = false ∧
  console (delete "x" 2 [Some ("x", [1; 2])] raced_env).2 = [] ∧
  shared_has (delete "x" 2 [Some ("x", [1; 2])] raced_env).2 "x" 2
  = shared_has raced_env "x" 2 && negb (bool_decide (2 = 2)) ∧
  (delete "x" 1 [Some ("x", [1; 2])] raced_env).2
  = console_warn raced_env DeletedElsewhere.
Proof.
  destruct (delete_shared_effect "x" 2 [Some ("x", [1; 2])] raced_env
              eq_refl) as [Hfound _].
  destruct (delete_shared_effect "x" 1 [Some ("x", [1; 2])] raced_env
              eq_refl) as [_ Hlost].
  destruct (Hfound eq_refl) as (Hc & _ & Hs).
  do 4 (split; [reflexivity|]).
  split; [exact Hc|]. split; [exact (Hs 2)|]. exact (Hlost eq_refl).
Defined.

(** X5: [deleteAll] of a name that is a key leaves in the shared collection of
    the name exactly the ranges that were there and that the registry did not
    hold; it puts no range into any collection, keeps the registry as it is,
    and emits at most one diagnostic, which is all that happens when the
    collection is missing. *)
Theorem deleteAll_shared_effect name (m : MapData) e (set : RangeSet) :
  map_get m name = Some set →
  (∀ r, shared_has (deleteAll name m e).2 name r
        = shared_has e name r && negb (set_has set r)) ∧
  (∀ n r, shared_has (deleteAll name m e).2 n r = true →
          shared_has e n r = true) ∧
  highlights (deleteAll name m e).2 = highlights e ∧
  (console (deleteAll name m e).2 = console e
   ∨ console (deleteAll name m e).2
     = console e ++ [SomeDeletedElsewhere name]) ∧
  (registry_get e name = None →
   (deleteAll name m e).2 = console_warn e (SomeDeletedElsewhere name)).
Proof.
  intros Hget. split; [intros r; by apply deleteAll_shared_has|].
  split; [|split; [apply deleteAll_registry|split; [apply deleteAll_console|]]].
  - intros n r. unfold shared_has, registry_get.
    rewrite deleteAll_registry.
    destruct (highlights e !! n) as [l|]; [|done]. apply deleteAll_mono.
  - intros Hreg. unfold deleteAll. by rewrite Hget, Hreg.
Qed.

Lemma deleteAll_shared_effect_witness :
  map_get [Some ("x", [1; 2])] "x" = Some [1; 2] ∧
  shared_has (deleteAll "x" [Some ("x", [1; 2])] raced_env).2 "x" 2 = false ∧
  highlights (deleteAll "x" [Some ("x", [1; 2])] raced_env).2
  = highlights raced_env.
Proof.
  destruct (deleteAll_shared_effect "x" [Some ("x", [1; 2])] raced_env
              [1; 2] eq_refl) as (Hs & _ & Hr & _).
  split; [reflexivity|]. split; [exact (Hs 2) | exact Hr].
Defined.

(** ** What the calls never do *)

Lemma foldl_deleteAll_registry ks st :
  highlights (foldl deleteAll_step st ks).2 = highlights st.2.
Proof.
  revert st. induction ks as [|k ks IH]; intros st; [done|].
  simpl. rewrite IH. unfold deleteAll_step.
  pose proof (deleteAll_registry k st.1 st.2) as Hr.
  by destruct (deleteAll k st.1 st.2) as [[b m'] e'].
Qed.

Lemma add_registry_kept name range priority (m : MapData) e n gh :
  registry_get e n = Some gh →
  registry_get (add name range priority m e).2 n = Some gh.
Proof.
  intros Hn. destruct (has name range m) eqn:Hhas.
  - unfold add, has in *. destruct (map_get m name) as [set|]; [|done].
    by rewrite Hhas.
  - destruct (shared_has e name range) eqn:Hs.
    + rewrite add_env_not_owned by done. by rewrite add_shared_throw.
    + destruct (add_env_effect name range priority m e Hhas Hs)
        as (gh' & Hreg & _ & [Hsame|[Hnone _]] & Hother & _).
      * destruct (decide (n = name)) as [->|Hne]; [congruence|].
        by rewrite Hother.
      * destruct (decide (n = name)) as [->|Hne]; [congruence|].
        by rewrite Hother.
Qed.

(** X6: No call unregisters a name from [CSS.highlights] or rebinds it to another
    [Highlight]: a collection emptied by [delete], [deleteAll] or [clear]
    stays registered.  Only [add] ever changes the registry, by binding a
    name that had no collection. *)
Theorem names_stay_registered c (m : MapData) e r m' e' :
  run c m e = Some (r, m', e') →
  (∀ n gh, registry_get e n = Some gh → registry_get e' n = Some gh) ∧
  ((∀ name range priority, c ≠ CallAdd name range priority) →
   highlights e' = highlights e).
Proof.
  destruct c as [name range priority|name range|name range|name|]; simpl.
  - pose proof (add_registry_kept name range priority m e) as Hk.
    destruct (add name range priority m e) as [[r0 m0] e0].
    intros [= <- <- <-]. split; [done|]. intros Hc. by destruct (Hc name range priority).
  - by intros [= <- <- <-].
  - pose proof (delete_registry name range m e) as Hr.
    destruct (delete name range m e) as [[b m0] e0].
    intros [= <- <- <-]. simpl in Hr. unfold registry_get. by rewrite Hr.
  - pose proof (deleteAll_registry name m e) as Hr.
    destruct (deleteAll name m e) as [[b m0] e0].
    intros [= <- <- <-]. simpl in Hr. unfold registry_get. by rewrite Hr.
  - rewrite clear_total. simpl.
    pose proof (foldl_deleteAll_registry (map_keys m) (m, e)) as Hr.
    unfold clear_snapshot. destruct (foldl _ _ _) as [m0 e0].
    intros [= <- <- <-]. simpl in Hr. unfold registry_get. by rewrite Hr.
Qed.

Lemma names_stay_registered_witness :
  run (CallDeleteAll "x") [Some ("x", [2])] raced_env
  = Some (Normal (VBool true), [None],
          (deleteAll "x" [Some ("x", [2])] raced_env).2) ∧
  shared_has (deleteAll "x" [Some ("x", [2])] raced_env).2 "x" 2 = false ∧
  registry_get (deleteAll "x" [Some ("x", [2])] raced_env).2 "x" = Some 0.
Proof.
  assert (run (CallDeleteAll "x") [Some ("x", [2])] raced_env
          = Some (Normal (VBool true), [None],
                  (deleteAll "x" [Some ("x", [2])] raced_env).2)) as Hrun
    by (vm_compute; reflexivity).
  destruct (names_stay_registered _ _ _ _ _ _ Hrun) as [Hkept _].
  split; [exact Hrun|]. split; [vm_compute; reflexivity|].
  exact (Hkept "x" 0 eq_refl).
Defined.

Lemma add_has_elsewhere name range priority (m : MapData) e name' range' :
  name' ≠ name ∨ range' ≠ range →
  has name' range' (add name range priority m e).1.2 = has name' range' m.
Proof.
  intros Hne.
  assert (∀ set0 : list nat,
            has name' range' (map_set m name (set_add set0 range))
            = if decide (name' = name) then set_has set0 range'
              else has name' range' m) as Hset.
  { intros set0. unfold has. case_decide as Hn; subst.
    - rewrite map_get_set_eq, set_has_add.
      destruct Hne as [?|Hr]; [done|].
      by rewrite bool_decide_eq_false_2, orb_false_r.
    - by rewrite map_get_set_ne. }
  assert (map_set (map_set m name []) name (set_add [] range)
          = map_set m name (set_add [] range)) as Hsetset.
  { clear. induction m as [|[[k v]|] m IH]; simpl; repeat case_decide;
      simpl; repeat case_decide; try done; by f_equal. }
  unfold add. destruct (map_get m name) as [set|] eqn:Hget.
  - destruct (set_has set range); [done|].
    destruct (shared_has e name range) eqn:Hs.
    + by rewrite add_shared_throw.
    + rewrite add_shared_normal by done. simpl. rewrite Hset.
      case_decide; subst; [|done]. unfold has. by rewrite Hget.
  - destruct (shared_has e name range) eqn:Hs.
    + rewrite add_shared_throw by done. simpl. unfold has.
      destruct (decide (name' = name)) as [->|Hn].
      * by rewrite map_get_set_eq, Hget.
      * by rewrite map_get_set_ne.
    + rewrite add_shared_normal by done. simpl. rewrite Hsetset, Hset.
      case_decide; subst; [|done]. unfold has. by rewrite Hget.
Qed.

(** X7: [add(name, range)] changes the answer of [has] for no other pair than
    [(name, range)], whether it answers [true], answers [false] or throws. *)
Theorem add_has_frame name range priority (m : MapData) e name' range' :
  name' ≠ name ∨ range' ≠ range →
  has name' range' (add name range priority m e).1.2 = has name' range' m.
Proof. apply add_has_elsewhere. Qed.

Lemma add_has_frame_witness :
  (("x" : string) ≠ "x" ∨ 2 ≠ 1) ∧
  has "x" 2 (add "x" 1 0 [Some ("x", [2])] raced_env).1.2
  = has "x" 2 [Some ("x", [2])].
Proof.
  split; [right; lia|].
  apply (add_has_frame "x" 1 0 [Some ("x", [2])] raced_env "x" 2).
  right. lia.
Defined.

(** X8: Every call that completes normally keeps the invariant of the ledger: a
    name is a key of [#ranges] only with a set that is not empty. *)
Theorem normal_calls_keep_ledger_inv c (m : MapData) e r m' e' :
  ledger_inv m = true →
  run c m e = Some (r, m', e') →
  is_throw r = false →
  ledger_inv m' = true.
Proof.
  intros Hinv.
  destruct c as [name range priority|name range|name range|name|]; simpl.
  - pose proof (add_normal_ledger_inv name range priority m e) as Hadd.
    destruct (add name range priority m e) as [[r0 m0] e0]. simpl in Hadd.
    intros [= <- <- <-] Hnt. destruct r0 as [b|msg]; [|done].
    by apply (Hadd b).
  - by intros [= <- <- <-].
  - pose proof (delete_ledger_inv name range m e Hinv) as Hd.
    destruct (delete name range m e) as [[b m0] e0]. by intros [= <- <- <-].
  - pose proof (deleteAll_ledger_inv name m e Hinv) as Hd.
    destruct (deleteAll name m e) as [[b m0] e0]. by intros [= <- <- <-].
  - destruct (clear m e) as [[m0 e0]|] eqn:Hclear; [|done]. simpl.
    intros [= <- <- <-] _. by eapply clear_ledger_inv.
Qed.

Lemma normal_calls_keep_ledger_inv_witness :
  ledger_inv [Some ("x", [1])] = true ∧
  run (CallDelete "x" 1) [Some ("x", [1])] raced_env
  = Some (Normal (VBool true), [None],
          (delete "x" 1 [Some ("x", [1])] raced_env).2) ∧
  ledger_inv [None] = true.
Proof.
  assert (run (CallDelete "x" 1) [Some ("x", [1])] raced_env
          = Some (Normal (VBool true), [None],
                  (delete "x" 1 [Some ("x", [1])] raced_env).2)) as Hrun
    by (vm_compute; reflexivity).
  split; [reflexivity|]. split; [exact Hrun|].
  exact (normal_calls_keep_ledger_inv (CallDelete "x" 1) [Some ("x", [1])]
           raced_env _ _ _ eq_refl Hrun eq_refl).
Defined.

(** ** How the calls compose *)




Lemma highlight_delete_has e gh r l x :
  highlight_has e gh r = true →
  highlight_has (highlight_delete e gh r).2 l x
  = highlight_has e l x && negb (bool_decide (l = gh) && bool_decide (x = r)).
Proof.
  intros Hh. unfold highlight_delete. rewrite Hh. simpl.
  unfold highlight_has. destruct (decide (l = gh)) as [->|Hne].
  - rewrite deref_store_eq. simpl. rewrite set_has_delete.
    by rewrite (bool_decide_eq_true_2 (gh = gh)).
  - rewrite deref_store_ne by done.
    by rewrite (bool_decide_eq_false_2 (l = gh)), andb_true_r.
Qed.



Lemma delete_shared_gone name range (m : MapData) e :
  has name range m = true →
  shared_has (delete name range m e).2 name range = false.
Proof.
  intros Hhas. rewrite delete_env_owned by done. unfold shared_has.
  destruct (registry_get e name) as [gh|] eqn:Hreg.
  - destruct (highlight_has e gh range) eqn:Hh.
    + unfold registry_get in *. rewrite highlight_delete_registry, Hreg.
      rewrite highlight_delete_has by done.
      by rewrite !bool_decide_eq_true_2, andb_false_r.
    + simpl. unfold registry_get in *. simpl. by rewrite Hreg.
  - unfold registry_get in *. simpl. by rewrite Hreg.
Qed.

(** X10: A range that the registry owned can be added again right after its
    [delete], and right after the [deleteAll] of its name: the [add] answers
    [true] and does not collide with what the removal left in the shared
    collection. *)
Theorem removed_range_can_be_added_again name range priority
    (m : MapData) e :
  has name range m = true →
  (add name range priority (delete name range m e).1.2
       (delete name range m e).2).1.1 = Normal true ∧
  (add name range priority (deleteAll name m e).1.2
       (deleteAll name m e).2).1.1 = Normal true.
Proof.
  intros Hhas. split.
  - apply add_answers_true; [apply delete_has_gone|].
    by apply delete_shared_gone.
  - pose proof Hhas as (set & Hget & Hin%set_has_true)%has_true.
    apply add_answers_true.
    + unfold has. by rewrite deleteAll_ledger, map_get_delete_eq.
    + rewrite (deleteAll_shared_has _ _ _ set) by done.
      by rewrite Hin, andb_false_r.
Qed.

Lemma removed_range_can_be_added_again_witness :
  has "x" 2 [Some ("x", [1; 2])] = true ∧
  (add "x" 2 0 (delete "x" 2 [Some ("x", [1; 2])] raced_env).1.2
       (delete "x" 2 [Some ("x", [1; 2])] raced_env).2).1.1 = Normal true ∧
  (add "x" 2 0 (deleteAll "x" [Some ("x", [1; 2])] raced_env).1.2
       (deleteAll "x" [Some ("x", [1; 2])] raced_env).2).1.1 = Normal true.
Proof.
  split; [reflexivity|].
  apply (removed_range_can_be_added_again "x" 2 0
           [Some ("x", [1; 2])] raced_env).
  reflexivity.
Defined.

(** ** [clear] and the shared collections *)

Lemma deleteAll_step_mono st k n r :
  shared_has (deleteAll_step st k).2 n r = true → shared_has st.2 n r = true.
Proof.
  unfold deleteAll_step.
  pose proof (deleteAll_registry k st.1 st.2) as Hr.
  pose proof (deleteAll_mono k st.1 st.2) as Hm.
  destruct (deleteAll k st.1 st.2) as [[b m'] e']. simpl in *.
  unfold shared_has, registry_get. rewrite Hr.
  destruct (highlights st.2 !! n) as [l|]; [apply Hm | done].
Qed.

Lemma foldl_deleteAll_mono ks st n r :
  shared_has (foldl deleteAll_step st ks).2 n r = true →
  shared_has st.2 n r = true.
Proof.
  revert st. induction ks as [|k ks IH]; intros st; [done|].
  simpl. intros H%IH. by eapply deleteAll_step_mono.
Qed.

Lemma foldl_deleteAll_removes ks st name range :
  name ∈ ks → has name range st.1 = true →
  shared_has (foldl deleteAll_step st ks).2 name range = false.
Proof.
  revert st. induction ks as [|k ks IH]; intros st Hin Hhas.
  - by apply not_elem_of_nil in Hin.
  - simpl. destruct (decide (k = name)) as [->|Hne].
    + apply not_true_is_false. intros H%foldl_deleteAll_mono.
      apply has_true in Hhas as (set & Hget & Hr%set_has_true).
      unfold deleteAll_step in H.
      pose proof (deleteAll_shared_has name st.1 st.2 set range Hget) as Hs.
      destruct (deleteAll name st.1 st.2) as [[b m'] e']. simpl in *.
      rewrite Hs, Hr, andb_false_r in H. done.
    + apply IH.
      * apply elem_of_cons in Hin as [->|Hin]; done.
      * rewrite <- Hhas. unfold has.
        by rewrite deleteAll_step_ledger, map_get_delete_ne.
Qed.

(** X11: After [clear], no shared collection holds under its name a range that the
    registry owned under that name when [clear] was called; [clear] puts no
    range into any collection; and a second [clear] right after does
    nothing at all. *)
Theorem clear_empties_shared (m : MapData) e m' e' :
  clear m e = Some (m', e') →
  (∀ name range, has name range m = true →
                 shared_has e' name range = false) ∧
  (∀ name range, shared_has e' name range = true →
                 shared_has e name range = true) ∧
  clear m' e' = Some (m', e').
Proof.
  rewrite clear_total. unfold clear_snapshot. intros [= Hc].
  split; [|split].
  - intros name range Hhas.
    pose proof (foldl_deleteAll_removes (map_keys m) (m, e) name range)
      as Hrm.
    rewrite Hc in Hrm. apply Hrm; [|done].
    destruct (decide (name ∈ map_keys m)) as [|Hnin]; [done|].
    apply map_get_keys in Hnin. unfold has in Hhas. by rewrite Hnin in Hhas.
  - intros name range.
    pose proof (foldl_deleteAll_mono (map_keys m) (m, e) name range) as Hm.
    by rewrite Hc in Hm.
  - pose proof (clear_snapshot_keys m e) as Hkeys.
    unfold clear_snapshot in Hkeys. rewrite Hc in Hkeys. simpl in Hkeys.
    rewrite clear_total. unfold clear_snapshot. by rewrite Hkeys.
Qed.

Lemma clear_empties_shared_witness :
  clear [Some ("x", [2])] raced_env
  = Some ([None], (deleteAll "x" [Some ("x", [2])] raced_env).2) ∧
  has "x" 2 [Some ("x", [2])] = true ∧
  shared_has raced_env "x" 2 = true ∧
  shared_has (deleteAll "x" [Some ("x", [2])] raced_env).2 "x" 2 = false ∧
  clear [None] (deleteAll "x" [Some ("x", [2])] raced_env).2
  = Some ([None], (deleteAll "x" [Some ("x", [2])] raced_env).2).
Proof.
  assert (clear [Some ("x", [2])] raced_env
          = Some ([None], (deleteAll "x" [Some ("x", [2])] raced_env).2))
    as Hclear by (vm_compute; reflexivity).
  destruct (clear_empties_shared _ _ _ _ Hclear) as (Hgone & _ & Hagain).
  split; [exact Hclear|]. split; [reflexivity|]. split; [reflexivity|].
  split; [exact (Hgone "x" 2 eq_refl) | exact Hagain].
Defined.

(** ** Priorities *)




(** ** The sets of the ledger *)

Lemma map_get_set (m : MapData) k v n :
  map_get (map_set m k v) n = if decide (n = k) then Some v else map_get m n.
Proof.
  case_decide; subst; [apply map_get_set_eq | by apply map_get_set_ne].
Qed.

Lemma map_get_delete (m : MapData) k n :
  map_get (map_delete m k) n = if decide (n = k) then None else map_get m n.
Proof.
  case_decide; subst; [apply map_get_delete_eq | by apply map_get_delete_ne].
Qed.

Lemma map_set_set (m : MapData) k v v' :
  map_set (map_set m k v) k v' = map_set m k v'.
Proof.
  induction m as [|[[k0 v0]|] m IH]; simpl; repeat case_decide;
    simpl; repeat case_decide; try done; by f_equal.
Qed.

Lemma set_add_NoDup (s : RangeSet) r : NoDup s → NoDup (set_add s r).
Proof.
  intros Hnd. unfold set_add. destruct (set_has s r) eqn:Hr; [done|].
  apply set_has_false in Hr. apply NoDup_app. split; [done|].
  split; [|apply NoDup_singleton].
  intros x Hx ->%list_elem_of_singleton. by apply Hr.
Qed.

(** The ledger of [add], case by case. *)
Lemma add_ledger_cases name range priority (m : MapData) e :
  (add name range priority m e).1.2 = m
  ∨ (add name range priority m e).1.2 = map_set m name []
  ∨ ∃ set0 : list nat,
      (map_get m name = Some set0 ∨ set0 = []) ∧
      (add name range priority m e).1.2
      = map_set m name (set_add set0 range).
Proof.
  unfold add. destruct (map_get m name) as [set|] eqn:Hget.
  - destruct (set_has set range); [by left|].
    destruct (shared_has e name range) eqn:Hs.
    + left. by rewrite add_shared_throw.
    + right. right. exists set. rewrite add_shared_normal by done.
      split; [by left | done].
  - destruct (shared_has e name range) eqn:Hs.
    + right. left. by rewrite add_shared_throw.
    + right. right. exists []. rewrite add_shared_normal by done.
      split; [by right|]. simpl. apply map_set_set.
Qed.

(** X13: No call makes a set of the ledger hold a range twice: if every set of
    [#ranges] is free of duplicates before a call, every set is after it,
    also when the call throws. *)
Theorem sets_stay_duplicate_free c (m : MapData) e r m' e' :
  (∀ n (s : list nat), map_get m n = Some s → NoDup s) →
  run c m e = Some (r, m', e') →
  ∀ n (s : list nat), map_get m' n = Some s → NoDup s.
Proof.
  intros Hnd.
  destruct c as [name range priority|name range|name range|name|]; simpl.
  - pose proof (add_ledger_cases name range priority m e) as Hcases.
    destruct (add name range priority m e) as [[r0 m0] e0]. simpl in Hcases.
    intros [= <- <- <-] n s.
    destruct Hcases as [->|[->|(set0 & Hset0 & ->)]]; [apply Hnd| |];
      rewrite map_get_set; case_decide; subst; try apply Hnd.
    + intros [= <-]. apply NoDup_nil_2.
    + intros [= <-]. apply set_add_NoDup.
      destruct Hset0 as [Hget| ->]; [by eapply Hnd | apply NoDup_nil_2].
  - by intros [= <- <- <-].
  - destruct (has name range m) eqn:Hhas.
    + apply has_true in Hhas as (set & Hget & Hin%set_has_true).
      pose proof (delete_owned name range m e set Hget Hin) as Hd.
      destruct (delete name range m e) as [[b m0] e0]. simpl in Hd.
      injection Hd as -> ->. intros [= <- <- <-] n s.
      case_decide.
      * rewrite map_get_delete. case_decide; [done|].
        rewrite map_get_set. case_decide; [done | apply Hnd].
      * rewrite map_get_set. case_decide; [|apply Hnd].
        intros [= <-]. unfold set_delete. apply NoDup_filter.
        by eapply Hnd.
    + rewrite delete_not_owned by done. by intros [= <- <- <-].
  - pose proof (deleteAll_ledger name m e) as Hd.
    destruct (deleteAll name m e) as [[b m0] e0]. simpl in Hd. subst m0.
    intros [= <- <- <-] n s. rewrite map_get_delete.
    case_decide; [done | apply Hnd].
  - rewrite clear_total. simpl.
    pose proof (clear_snapshot_keys m e) as Hkeys.
    destruct (clear_snapshot m e) as [m0 e0]. simpl in Hkeys.
    intros [= <- <- <-] n s. by rewrite map_keys_nil_get.
Qed.

Lemma sets_stay_duplicate_free_witness :
  (∀ n (s : list nat), map_get [Some ("x", [2])] n = Some s → NoDup s) ∧
  run (CallAdd "x" 1 0) [Some ("x", [2])] raced_env
  = Some (Normal (VBool true), [Some ("x", [2; 1])],
          (add "x" 1 0 [Some ("x", [2])] raced_env).2) ∧
  ∀ n (s : list nat), map_get [Some ("x", [2; 1])] n = Some s → NoDup s.
Proof.
  assert (∀ n (s : list nat),
            map_get [Some ("x", [2])] n = Some s → NoDup s) as Hnd.
  { intros n s. simpl. case_decide; [|done]. intros [= <-].
    apply NoDup_singleton. }
  assert (run (CallAdd "x" 1 0) [Some ("x", [2])] raced_env
          = Some (Normal (VBool true), [Some ("x", [2; 1])],
                  (add "x" 1 0 [Some ("x", [2])] raced_env).2)) as Hrun
    by (vm_compute; reflexivity).
  split; [exact Hnd|]. split; [exact Hrun|].
  exact (sets_stay_duplicate_free (CallAdd "x" 1 0) [Some ("x", [2])]
           raced_env _ _ _ Hnd Hrun).
Defined.

(** X14: [deleteAll(name)] leaves the registry owning nothing under [name] and
    owning under every other name what it owned. *)
Theorem deleteAll_has_frame name (m : MapData) e n r :
  has n r (deleteAll name m e).1.2
  = if decide (n = name) then false else has n r m.
Proof.
  unfold has. rewrite deleteAll_ledger, map_get_delete. by case_decide.
Qed.

(** ** The diagnostic of [deleteAll], when the set has no duplicates *)

(** X15: with a set free of duplicates, [deleteAll] is silent when the
    collection exists and holds every range of the set; and when it does emit
    its diagnostic, the collection is missing or lacks one of the ranges of
    the set. *)
Theorem deleteAll_diagnostic_sound name (m : MapData) e (set : RangeSet) :
  map_get m name = Some set →
  NoDup set →
  ((∃ gh, registry_get e name = Some gh) →
   (∀ r, r ∈ set → shared_has e name r = true) →
   console (deleteAll name m e).2 = console e) ∧
  (console (deleteAll name m e).2 ≠ console e →
   registry_get e name = None
   ∨ ∃ r, r ∈ set ∧ shared_has e name r = false).
Proof.
  intros Hget Hnd.
  assert ((∃ gh, registry_get e name = Some gh) →
          (∀ r, r ∈ set → shared_has e name r = true) →
          console (deleteAll name m e).2 = console e) as Hquiet.
  { intros [gh Hreg] Hall.
    destruct set as [|r0 set0] using rev_ind.
    - unfold deleteAll. by rewrite Hget, Hreg.
    - rewrite (deleteAll_warns_on_last _ _ _ set0 r0 gh) by done.
      assert (highlight_has (deleteAll_loop gh set0 false e).2 gh r0 = true)
        as ->; [|done].
      apply set_has_true, deleteAll_loop_ranges.
      apply NoDup_app in Hnd as (_ & Hdisj & _). split.
      + specialize (Hall r0). unfold shared_has in Hall.
        rewrite Hreg in Hall. apply set_has_true, Hall.
        apply elem_of_app. right. by left.
      + intros Hin. apply (Hdisj r0 Hin). by left. }
  split; [done|]. intros Hloud.
  destruct (registry_get e name) as [gh|] eqn:Hreg; [|by left]. right.
  destruct (decide (Forall (λ r, shared_has e name r = true) set))
    as [Hall|Hsome].
  - exfalso. apply Hloud, Hquiet; [by eauto|].
    by apply Forall_forall.
  - apply not_Forall_Exists in Hsome; [|apply _].
    apply Exists_exists in Hsome as (r & Hin & Hr).
    exists r. split; [done|]. by apply not_true_is_false.
Qed.

Lemma deleteAll_diagnostic_sound_witness :
  map_get [Some ("x", [2])] "x" = Some [2] ∧
  NoDup [2] ∧
  (∃ gh, registry_get raced_env "x" = Some gh) ∧
  (∀ r, r ∈ [2] → shared_has raced_env "x" r = true) ∧
  console (deleteAll "x" [Some ("x", [2])] raced_env).2 = console raced_env.
Proof.
  assert (NoDup [2]) as Hnd by apply NoDup_singleton.
  assert (∃ gh, registry_get raced_env "x" = Some gh) as Hreg
    by (exists 0; reflexivity).
  assert (∀ r, r ∈ [2] → shared_has raced_env "x" r = true) as Hall
    by (intros r ->%list_elem_of_singleton; reflexivity).
  destruct (deleteAll_diagnostic_sound "x" [Some ("x", [2])] raced_env [2]
              eq_refl Hnd) as [Hquiet _].
  split; [reflexivity|]. split; [exact Hnd|]. split; [exact Hreg|].
  split; [exact Hall|]. exact (Hquiet Hreg Hall).
Defined.

(** ** Priorities of the [Highlight] objects that exist *)

Lemma priorities_kept_refl e : priorities_kept e e.
Proof. intros l h Hl. by exists h. Qed.

Lemma priorities_kept_trans e1 e2 e3 :
  priorities_kept e1 e2 → priorities_kept e2 e3 → priorities_kept e1 e3.
Proof.
  intros H12 H23 l h Hl. destruct (H12 l h Hl) as (h' & Hl' & Hp).
  destruct (H23 l h' Hl') as (h'' & Hl'' & Hp'). exists h''.
  split; [done | congruence].
Qed.

Lemma priorities_kept_console e d : priorities_kept e (console_warn e d).
Proof. intros l h Hl. by exists h. Qed.

Lemma highlight_delete_priorities e gh r :
  priorities_kept e (highlight_delete e gh r).2.
Proof.
  unfold highlight_delete.
  destruct (highlight_has e gh r); [|apply priorities_kept_refl]. simpl.
  intros l h Hl. unfold store. simpl. rewrite lookup_insert.
  case_decide; subst; [|by exists h].
  eexists. split; [done|]. simpl. unfold deref. by rewrite Hl.
Qed.

Lemma deleteAll_loop_priorities gh (set : RangeSet) w e :
  priorities_kept e (deleteAll_loop gh set w e).2.
Proof.
  revert w e. induction set as [|r set IH]; intros w e;
    [apply priorities_kept_refl|].
  rewrite deleteAll_loop_cons.
  eapply priorities_kept_trans; [apply highlight_delete_priorities | apply IH].
Qed.

Lemma deleteAll_priorities name (m : MapData) e :
  priorities_kept e (deleteAll name m e).2.
Proof.
  unfold deleteAll.
  destruct (map_get m name) as [set|]; [|apply priorities_kept_refl].
  destruct (registry_get e name) as [gh|];
    [|apply priorities_kept_console].
  pose proof (deleteAll_loop_priorities gh set false e) as Hp.
  destruct (deleteAll_loop gh set false e) as [w e1]. simpl in *.
  destruct w; [|done].
  eapply priorities_kept_trans; [done | apply priorities_kept_console].
Qed.

Lemma delete_priorities name range (m : MapData) e :
  priorities_kept e (delete name range m e).2.
Proof.
  destruct (has name range m) eqn:Hhas.
  - rewrite delete_env_owned by done.
    destruct (registry_get e name) as [gh|];
      [|apply priorities_kept_console].
    destruct (highlight_has e gh range);
      [apply highlight_delete_priorities | apply priorities_kept_console].
  - rewrite delete_not_owned by done. apply priorities_kept_refl.
Qed.

Lemma add_priorities name range priority (m : MapData) e :
  priorities_kept e (add name range priority m e).2.
Proof.
  destruct (has name range m) eqn:Hhas.
  - unfold add, has in *. destruct (map_get m name) as [set|]; [|done].
    rewrite Hhas. apply priorities_kept_refl.
  - rewrite add_env_not_owned by done.
    destruct (registry_get e name) as [gh|] eqn:Hreg.
    + destruct (highlight_has e gh range) eqn:Hh.
      * rewrite add_shared_throw by (unfold shared_has; by rewrite Hreg).
        apply priorities_kept_refl.
      * rewrite (add_shared_existing_env _ _ _ _ _ _ gh) by done.
        intros l h Hl. simpl. rewrite lookup_insert.
        case_decide; subst; [|by exists h].
        eexists. split; [done|]. simpl. unfold deref. by rewrite Hl.
    + rewrite add_shared_new_env by done.
      intros l h Hl. simpl. rewrite lookup_insert_ne; [by exists h|].
      intros Heq. pose proof (is_fresh (dom (heap e))) as Hfresh.
      rewrite Heq in Hfresh. apply Hfresh, elem_of_dom. by eexists.
Qed.

Lemma foldl_deleteAll_priorities ks st :
  priorities_kept st.2 (foldl deleteAll_step st ks).2.
Proof.
  revert st. induction ks as [|k ks IH]; intros st;
    [apply priorities_kept_refl|].
  simpl. eapply priorities_kept_trans; [|apply IH].
  unfold deleteAll_step.
  pose proof (deleteAll_priorities k st.1 st.2) as Hp.
  by destruct (deleteAll k st.1 st.2) as [[b m'] e'].
Qed.

(** X16: no call removes a [Highlight] object or changes the priority of one
    that exists: the priority argument of [add] only reaches the object that
    [add] itself creates. *)
Theorem priorities_never_change c (m : MapData) e r m' e' :
  run c m e = Some (r, m', e') → priorities_kept e e'.
Proof.
  destruct c as [name range priority|name range|name range|name|]; simpl.
  - pose proof (add_priorities name range priority m e) as Hp.
    destruct (add name range priority m e) as [[r0 m0] e0].
    by intros [= <- <- <-].
  - intros [= <- <- <-]. apply priorities_kept_refl.
  - pose proof (delete_priorities name range m e) as Hp.
    destruct (delete name range m e) as [[b m0] e0]. by intros [= <- <- <-].
  - pose proof (deleteAll_priorities name m e) as Hp.
    destruct (deleteAll name m e) as [[b m0] e0]. by intros [= <- <- <-].
  - rewrite clear_total. simpl.
    pose proof (foldl_deleteAll_priorities (map_keys m) (m, e)) as Hp.
    unfold clear_snapshot. destruct (foldl _ _ _) as [m0 e0].
    by intros [= <- <- <-].
Qed.

Lemma priorities_never_change_witness :
  run (CallAdd "x" 1 5) [] raced_env
  = Some (Normal (VBool true), [Some ("x", [1])],
          (add "x" 1 5 [] raced_env).2) ∧
  priorities_kept raced_env (add "x" 1 5 [] raced_env).2.
Proof.
  assert (run (CallAdd "x" 1 5) [] raced_env
          = Some (Normal (VBool true), [Some ("x", [1])],
                  (add "x" 1 5 [] raced_env).2)) as Hrun
    by (vm_compute; reflexivity).
  split; [exact Hrun|].
  exact (priorities_never_change _ _ _ _ _ _ Hrun).
Defined.
